(** * Linear feedback shift registers: the Fibonacci and Galois models

    A shallow embedding of [lfsr/lfsr.py] (classes [LFSR] and
    [Galois_LFSR]) and the properties of its state-transition engine.

    Python integers are [Z], Python strings are lists of characters, Python
    lists are lists, and a raised exception is the [Raise] branch of
    [result].  The two classes differ in [build_poly] (field order and round
    function) and in [algebraic]; the remaining methods are textually the
    same in both classes and are embedded once, over a [model] tag that
    stands for the class of the receiver.

    The program has one floating-point computation, the field order
    [ceil(log(poly, 2).real)] of the class [LFSR].  It is the exact ceiling
    of the logarithm for a polynomial below [2^29] in magnitude; from there
    on double precision decides, and the development takes what it returns
    as a parameter, so that every statement holds whatever that is. *)

From Stdlib Require Import ZArith Ascii String DecimalString Lia Bool.
From stdpp Require Import base tactics list numbers.

Local Open Scope Z_scope.

(** ** Exceptions and fallible computations *)

Inductive exn : Type :=
| ValueError
| TypeError
| IndexError
| OverflowError.

Inductive result (A : Type) : Type :=
| Ok (a : A)
| Raise (e : exn).

Arguments Ok {A} a.
Arguments Raise {A} e.

Definition bind {A B} (c : result A) (k : A -> result B) : result B :=
  match c with
  | Ok a => k a
  | Raise e => Raise e
  end.

Notation "x <- c ;; k" := (bind c (fun x => k))
  (at level 100, c at next level, right associativity).
Notation "'let*' p := c 'in' k" := (bind c (fun p => k))
  (at level 100, p pattern, c at next level, right associativity).

(** ** The Python built-ins the program uses *)

Module Py.

(** A Python [str]. *)
Definition str : Type := list ascii.

Definition lit (s : string) : str := list_ascii_of_string s.

Definition len {A} (l : list A) : Z := Z.of_nat (length l).

(** [range(a, b)] *)
Definition range (a b : Z) : list Z := seqZ a (b - a).

(** [for x in xs: body], the loop state threaded through the body. *)
Fixpoint for_each {S X} (xs : list X) (body : S -> X -> result S) (s : S)
  : result S :=
  match xs with
  | [] => Ok s
  | x :: rest => s' <- body s x ;; for_each rest body s'
  end.

(** An index as Python resolves it: a negative one counts from the end. *)
Definition resolve (n i : Z) : option nat :=
  let j := if i <? 0 then i + n else i in
  if (0 <=? j) && (j <? n) then Some (Z.to_nat j) else None.

(** [l[i]] *)
Definition getitem {A} (l : list A) (i : Z) : result A :=
  match resolve (len l) i with
  | Some j => match l !! j with Some x => Ok x | None => Raise IndexError end
  | None => Raise IndexError
  end.

(** [l[i] = x] *)
Definition setitem {A} (l : list A) (i : Z) (x : A) : result (list A) :=
  match resolve (len l) i with
  | Some j => Ok (<[j := x]> l)
  | None => Raise IndexError
  end.

(** A slice bound as Python clamps it. *)
Definition clamp (n k : Z) : nat :=
  Z.to_nat (if k <? 0 then Z.max 0 (k + n) else Z.min k n).

(** [l[lo:hi]] *)
Definition slice {A} (l : list A) (lo hi : Z) : list A :=
  let a := clamp (len l) lo in
  let b := clamp (len l) hi in
  take (b - a)%nat (drop a l).

(** [l[lo:hi] = v] *)
Definition slice_assign {A} (l : list A) (lo hi : Z) (v : list A) : list A :=
  let a := clamp (len l) lo in
  let b := clamp (len l) hi in
  take a l ++ v ++ drop (Nat.max a b) l.

(** [functools.reduce(f, l)], without an initial value. *)
Definition reduce {A} (f : A -> A -> A) (l : list A) : result A :=
  match l with
  | [] => Raise TypeError
  | x :: rest => Ok (fold_left f rest x)
  end.

(** [sep.join(l)] *)
Fixpoint join (sep : str) (l : list str) : str :=
  match l with
  | [] => []
  | [s] => s
  | s :: rest => s ++ sep ++ join sep rest
  end.

(** [str(n)] for an integer: its decimal digits. *)
Definition str_int (n : Z) : str :=
  lit (NilEmpty.string_of_int (Z.to_int n)).

(** The binary digits of a positive number, most significant first. *)
Fixpoint bin_pos (p : positive) (acc : str) : str :=
  match p with
  | xH => "1"%char :: acc
  | xO q => bin_pos q ("0"%char :: acc)
  | xI q => bin_pos q ("1"%char :: acc)
  end.

(** The digits of the magnitude of [n]. *)
Definition bin_digits (n : Z) : str :=
  match n with
  | Z0 => ["0"%char]
  | Zpos p => bin_pos p []
  | Zneg p => bin_pos p []
  end.

(** [f'{n:0{width}b}']: binary, sign first, zero-padded to at least
    [width] characters.  [f'{n:0b}'] is [format_b 0 n]. *)
Definition format_b (width n : Z) : str :=
  let d := bin_digits n in
  if n <? 0
  then "-"%char :: replicate (Z.to_nat (width - 1 - len d)) "0"%char ++ d
  else replicate (Z.to_nat (width - len d)) "0"%char ++ d.

Definition digit2 (c : ascii) : option Z :=
  if Ascii.eqb c "0" then Some 0
  else if Ascii.eqb c "1" then Some 1
  else None.

Fixpoint int2_digits (acc : Z) (s : str) : result Z :=
  match s with
  | [] => Ok acc
  | c :: rest =>
      match digit2 c with
      | Some d => int2_digits (2 * acc + d) rest
      | None => Raise ValueError
      end
  end.

(** [int(s, 2)] on the strings this program builds, which hold only the
    characters [0], [1] and [-]: an optional sign, then at least one
    binary digit; anything else is a [ValueError]. *)
Definition int2 (s : str) : result Z :=
  match s with
  | [] => Raise ValueError
  | c :: rest =>
      if Ascii.eqb c "-"
      then match rest with
           | [] => Raise ValueError
           | _ => v <- int2_digits 0 rest ;; Ok (- v)
           end
      else int2_digits 0 s
  end.

(** [[f(x) for x in l]] with a fallible [f]. *)
Fixpoint comprehension {A B} (f : A -> result B) (l : list A)
  : result (list B) :=
  match l with
  | [] => Ok []
  | x :: rest => y <- f x ;; ys <- comprehension f rest ;; Ok (y :: ys)
  end.

(** [2 ** n]; a negative exponent gives a float, which [range] refuses. *)
Definition pow2 (n : Z) : result Z :=
  if n <? 0 then Raise TypeError else Ok (2 ^ n).

End Py.

Import Py.

(** ** The register *)

(** The class of a register: [LFSR] or [Galois_LFSR]. *)
Inductive model : Type :=
| Fibonacci
| Galois.

(** The attributes of a register object.  [poly_str] is the string the
    closure [fround] captured in [build_poly].  The attributes [state_elab]
    and [__feedback] are assigned by [fround] before it reads them, so they
    are locals of [fround] here. *)
Record register : Type := mk_register {
  poly : Z;
  state : Z;
  state_init : Z;
  field_order : Z;
  poly_str : str
}.

Definition set_state (self : register) (s : Z) : register :=
  {| poly := poly self; state := s; state_init := state_init self;
     field_order := field_order self; poly_str := poly_str self |}.

Module LFSR.

(** [ceil(log(poly, 2).real)].  [cmath.log] works in double precision and
    the real part of the complex logarithm is the logarithm of the
    magnitude.  At 0 the logarithm is minus infinity and [ceil] raises.
    For a magnitude below [2^29] the rounding error of the quotient
    [log(|poly|) / log(2)] is too small to move it across an integer, and at
    the powers of two it is exactly the exponent: the result is the exact
    ceiling.  From [2^29] on that is no longer so ([log(2^29) / log(2)] is
    29.000000000000004, whose ceiling is 30), and the conversion to a
    double overflows on a magnitude beyond the double range.  There the
    result is left to [float_excess], which stands for the floating-point
    computation: it raises, or says by how much the ceiling it finds
    exceeds 29, the quotient being at least about 29. *)
Definition ceil_log2 (float_excess : Z -> result nat) (poly : Z) : result Z :=
  if poly =? 0 then Raise OverflowError
  else if Z.abs poly <? 2 ^ 29 then Ok (Z.log2_up (Z.abs poly))
  else (e <- float_excess poly ;; Ok (29 + Z.of_nat e)).

(** What [build_poly] computes: the field order and [poly_str]. *)
Definition build_poly (float_excess : Z -> result nat) (poly : Z)
  : result (Z * str) :=
  fo <- ceil_log2 float_excess poly ;;
  Ok (fo, format_b fo poly).

Definition fround (self : register) : result register :=
  let fo := field_order self in
  state_elab <- comprehension (fun x => int2 [x]) (format_b fo (state self)) ;;
  feedback <- for_each (range 0 fo)
    (fun feedback x =>
       c <- getitem (poly_str self) x ;;
       if Ascii.eqb c "1"
       then (b <- getitem state_elab x ;; Ok (feedback ++ [b]))
       else Ok feedback)
    [] ;;
  let state_elab := slice_assign state_elab 0 (fo - 1) (slice state_elab 1 fo) in
  fb <- reduce Z.lxor feedback ;;
  state_elab <- setitem state_elab (fo - 1) fb ;;
  s <- int2 (join [] (str_int <$> state_elab)) ;;
  Ok (set_state self s).

(** The property [algebraic]. *)
Definition algebraic (self : register) : result str :=
  let fo := field_order self in
  let poly_str := format_b fo (poly self) in
  poly_math <- for_each (range 0 (fo - 2))
    (fun poly_math x =>
       c <- getitem poly_str x ;;
       if Ascii.eqb c "1"
       then Ok (poly_math ++ [lit "x ^ " ++ str_int (fo - x - 1)])
       else Ok poly_math)
    [] ;;
  c <- getitem poly_str (fo - 2) ;;
  let poly_math := if Ascii.eqb c "1" then poly_math ++ [lit "x"] else poly_math in
  c <- getitem poly_str (fo - 1) ;;
  let poly_math := if Ascii.eqb c "1" then poly_math ++ [lit "1"] else poly_math in
  Ok (join (lit " + ") poly_math).

End LFSR.

Module Galois_LFSR.

Definition build_poly (poly : Z) : result (Z * str) :=
  let poly_str := format_b 0 poly in
  Ok (len poly_str, poly_str).

Definition fround (self : register) : result register :=
  let fo := field_order self in
  state_elab <- comprehension (fun x => int2 [x]) (format_b fo (state self)) ;;
  feedback <- for_each (range 1 fo)
    (fun feedback x =>
       c <- getitem (poly_str self) x ;;
       if Ascii.eqb c "1"
       then (s0 <- getitem state_elab 0 ;;
             sx <- getitem state_elab x ;;
             setitem feedback (x - 1) (Z.lxor s0 sx))
       else (sx <- getitem state_elab x ;;
             setitem feedback (x - 1) sx))
    (replicate (Z.to_nat fo) 0) ;;
  s0 <- getitem state_elab 0 ;;
  feedback <- setitem feedback (fo - 1) s0 ;;
  let state_elab := feedback in
  s <- int2 (join [] (str_int <$> state_elab)) ;;
  Ok (set_state self s).

(** The property [algebraic]. *)
Definition algebraic (self : register) : result str :=
  let fo := field_order self in
  let poly_str := format_b fo (poly self) in
  poly_math <- for_each (range 0 (fo - 1))
    (fun poly_math x =>
       c <- getitem poly_str x ;;
       if Ascii.eqb c "1"
       then Ok (poly_math ++ [lit "x ^ " ++ str_int (fo - x)])
       else Ok poly_math)
    [] ;;
  c <- getitem poly_str (fo - 1) ;;
  let poly_math := if Ascii.eqb c "1" then poly_math ++ [lit "x"] else poly_math in
  let poly_math := poly_math ++ [lit "1"] in
  Ok (join (lit " + ") poly_math).

End Galois_LFSR.

(** A floating-point logarithm for the examples.  At the two polynomials
    the examples reach beyond the exact range it gives what double
    precision gives: the quotient [log(2^29) / log(2)] is
    29.000000000000004, of ceiling 30, and [log(2^51 - 1) / log(2)] is
    51.00000000000001, of ceiling 52.  Elsewhere it raises, as the
    conversion to a double does on a polynomial beyond the double range. *)
Definition sample_excess (poly : Z) : result nat :=
  if Z.abs poly =? 2 ^ 29 then Ok 1%nat
  else if poly =? 2 ^ 51 - 1 then Ok 23%nat
  else Raise OverflowError.

Section Registers.

(** The floating-point part of [LFSR.build_poly]; every statement of this
    section holds whatever it returns. *)
Variable float_excess : Z -> result nat.

(** ** The methods the two classes share *)

Definition build_poly (m : model) : Z -> result (Z * str) :=
  match m with
  | Fibonacci => LFSR.build_poly float_excess
  | Galois => Galois_LFSR.build_poly
  end.

(** The round function [self.__round]. *)
Definition fround (m : model) : register -> result register :=
  match m with
  | Fibonacci => LFSR.fround
  | Galois => Galois_LFSR.fround
  end.

(** [__init__(poly, state)] *)
Definition init (m : model) (poly state : Z) : result register :=
  let* (fo, ps) := build_poly m poly in
  Ok {| poly := poly; state := state; state_init := state;
        field_order := fo; poly_str := ps |}.

(** [next()]: the register after the call and the value returned. *)
Definition next (m : model) (self : register) : result (register * Z) :=
  self <- fround m self ;;
  Ok (self, state self).

Definition cycle (m : model) (self : register) (rounds : Z)
  : result (register * Z) :=
  self <- for_each (range 0 rounds) (fun self _ => fround m self) self ;;
  Ok (self, state self).

Definition full_cycle (m : model) (self : register) : result (register * Z) :=
  n <- pow2 (field_order self) ;;
  self <- for_each (range 0 n) (fun self _ => fround m self) self ;;
  Ok (self, state self).

Definition reset (m : model) (self : register) : result register :=
  init m (poly self) (state_init self).

Definition load (m : model) (self : register) (state : Z) : result register :=
  init m (poly self) state.

(** The dictionary [state_table] returns, one field per key. *)
Record table : Type := mk_table {
  Cycle : list Z;
  State : list Z;
  Register_State : list str
}.

Definition state_table (m : model) (self : register)
  : result (register * table) :=
  n <- pow2 (field_order self) ;;
  let* (self, t) := for_each (range 0 n)
    (fun '(self, t) x =>
       let t := {| Cycle := Cycle t ++ [x];
                   State := State t ++ [state self];
                   Register_State :=
                     Register_State t
                       ++ [format_b (field_order self) (state self)] |} in
       self <- fround m self ;;
       Ok (self, t))
    (self, {| Cycle := []; State := []; Register_State := [] |}) in
  self <- reset m self ;;
  Ok (self, t).

(** [from_lfsrs]: the arguments after their reset, and the new
    register. *)
Definition from_lfsrs (m : model) (args : list register)
  : result (list register * register) :=
  let* (args, elong_poly, elong_state) := for_each args
    (fun '(seen, elong_poly, elong_state) x =>
       x <- reset m x ;;
       Ok (seen ++ [x],
           elong_poly ++ format_b (field_order x) (poly x),
           elong_state ++ format_b (field_order x) (state x)))
    ([], [], []) in
  elong_poly <- int2 elong_poly ;;
  elong_state <- int2 elong_state ;;
  r <- init m elong_poly elong_state ;;
  Ok (args, r).

(** ** What the specification calls things *)

(** Stage [i] of the [fo]-bit representation of [s], stage 0 the most
    significant. *)
Definition stage (fo s i : Z) : bool := Z.testbit s (fo - 1 - i).

(** Bit [i] of the minimal binary representation of [p], bit 0 the most
    significant. *)
Definition tap (p i : Z) : bool := Z.testbit p (Z.log2 p - i).

(** Digit [i] of the binary representation of [p] zero-padded to [fo]
    digits, digit 0 the most significant: the representation is never cut,
    so it has [fo] digits or, when [p] has more bits, as many as [p] has
    bits.  These are the characters of [poly_str] in the external-feedback
    model. *)
Definition padded_tap (fo p i : Z) : bool :=
  Z.testbit p (Z.max fo (Z.log2 p + 1) - 1 - i).

(** The stages a register reads as taps: the digits of [poly_str]. *)
Definition taps (m : model) (fo p : Z) : Z -> bool :=
  match m with
  | Fibonacci => padded_tap fo p
  | Galois => tap p
  end.

(** The integer a list of bits stands for, the head most significant. *)
Definition of_bits (bs : list bool) : Z :=
  fold_left (fun acc b => 2 * acc + Z.b2z b) bs 0.

Definition xor_all (bs : list bool) : bool := fold_right xorb false bs.

(** The one-step rule of the external-feedback model, in the words of the
    specification. *)
Definition fibonacci_rule (fo : Z) (tap : Z -> bool) (s : Z) : Z :=
  let feedback := xor_all (stage fo s <$> List.filter tap (range 0 fo)) in
  let s' i := if i <? fo - 1 then stage fo s (i + 1) else feedback in
  of_bits (s' <$> range 0 fo).

(** The one-step rule of the internal-feedback model, in the words of the
    specification. *)
Definition galois_rule (fo : Z) (tap : Z -> bool) (s : Z) : Z :=
  let msb := stage fo s 0 in
  let new_stage j :=
    if j <? fo - 1
    then (if tap (j + 1) then xorb (stage fo s (j + 1)) msb
          else stage fo s (j + 1))
    else msb in
  of_bits (new_stage <$> range 0 fo).

Definition rule (m : model) : Z -> (Z -> bool) -> Z -> Z :=
  match m with
  | Fibonacci => fibonacci_rule
  | Galois => galois_rule
  end.

(** The polynomials the specification accepts for each model. *)
Definition valid_poly (m : model) (p : Z) : Prop :=
  match m with
  | Fibonacci => 2 <= p
  | Galois => 1 <= p
  end.

(** A register whose derived attributes are those [build_poly] computes
    from its polynomial: every register [init] returns is one, and no method
    changes that. *)
Definition built (m : model) (r : register) : Prop :=
  build_poly m (poly r) = Ok (field_order r, poly_str r).

(** [n] calls of [next()] in sequence: the register after them and the
    value the last call returned (the current state when [n] is 0). *)
Fixpoint next_times (m : model) (n : nat) (self : register)
  : result (register * Z) :=
  match n with
  | O => Ok (self, state self)
  | S k => let* (self, _) := next m self in next_times m k self
  end.

(** ** Notions the statements use *)

Definition bit_char (b : bool) : ascii := if b then "1"%char else "0"%char.

(** The number of characters [format_b w n] has for a non-negative [n]. *)
Definition width (w n : Z) : Z := Z.max w (Z.log2 n + 1).

(** The stages after one round on a register of [L >= fo] stored digits:
    on a state within range [L] is [fo]. *)
Definition fibonacci_stages (fo L : Z) (tap : Z -> bool) (s : Z) (i : Z) : bool :=
  if i <? fo - 1 then stage L s (i + 1)
  else if i =? fo - 1
       then xor_all (stage L s <$> List.filter tap (range 0 fo))
       else stage L s i.

(** The stages after one round on a register of [L >= fo] stored digits. *)
Definition galois_stages (fo L : Z) (tap : Z -> bool) (s : Z) (j : Z) : bool :=
  if j <? fo - 1
  then (if tap (j + 1) then xorb (stage L s 0) (stage L s (j + 1))
        else stage L s (j + 1))
  else stage L s 0.

(** The state one round leaves, from any non-negative state. *)
Definition round_state (m : model) (fo p s : Z) : Z :=
  let L := width fo s in
  match m with
  | Fibonacci =>
      of_bits (fibonacci_stages fo L (padded_tap fo p) s <$> range 0 L)
  | Galois => of_bits (galois_stages fo L (tap p) s <$> range 0 fo)
  end.

Definition step (m : model) (r : register) : register :=
  set_state r (round_state m (field_order r) (poly r) (state r)).

(** A register on which the round function is defined. *)
Definition ready (m : model) (r : register) : Prop :=
  built m r /\ valid_poly m (poly r) /\ 0 <= state r.

Definition in_range (r : register) : Prop :=
  0 <= state r < 2 ^ field_order r.

(** [n] rounds in sequence. *)
Definition rounds (m : model) (n : nat) (r : register) : result register :=
  Nat.iter n (fun c => bind c (fround m)) (Ok r).

(** The registers a run of [n] rounds passes through, the last one
    excluded. *)
Fixpoint trajectory (m : model) (n : nat) (r : register) : list register :=
  match n with
  | O => []
  | S k => r :: trajectory m k (step m r)
  end.

(** The calls a caller can make on a register. *)
Inductive call : Type :=
| Next
| Cycle_rounds (rounds : Z)
| Full_cycle
| State_table
| Reset
| Load (s : Z).

(** The register a call leaves. *)
Definition run (m : model) (r : register) (c : call) : result register :=
  match c with
  | Next => let* (r', _) := next m r in Ok r'
  | Cycle_rounds n => let* (r', _) := cycle m r n in Ok r'
  | Full_cycle => let* (r', _) := full_cycle m r in Ok r'
  | State_table => let* (r', _) := state_table m r in Ok r'
  | Reset => reset m r
  | Load s => load m r s
  end.

(** The initial state a register holds after a sequence of calls: the one
    last loaded, or else the one it was constructed with. *)
Definition last_loaded (s : Z) (cs : list call) : Z :=
  fold_left (fun acc c => match c with Load x => x | _ => acc end) cs s.

(** Two registers that differ in the state at most. *)
Definition same_frame (r r' : register) : Prop :=
  poly r' = poly r /\ field_order r' = field_order r
  /\ poly_str r' = poly_str r /\ state_init r' = state_init r.

(** Whether character [i] of a string is the digit 1. *)
Definition char_set (ps : list ascii) (i : Z) : bool :=
  match ps !! Z.to_nat i with
  | Some c => Ascii.eqb c "1"
  | None => false
  end.

(** The terms of the algebraic form that depend on the digits: [x ^ k] for
    the digits before the last, [x] for the last. *)
Definition galois_terms (fo : Z) (bit : Z -> bool) : list str :=
  ((fun i => lit "x ^ " ++ str_int (fo - i))
     <$> List.filter bit (range 0 (fo - 1)))
  ++ (if bit (fo - 1) then [lit "x"] else []).

(** The integer whose binary representation is the concatenation of the
    values [v] of a list of pairs [(w, v)], each over [w] bits, the first
    pair most significant. *)
Definition bit_concat (l : list (Z * Z)) : Z :=
  fold_left (fun acc wv => acc * 2 ^ fst wv + snd wv) l 0.

Definition sum_list (l : list Z) : Z := fold_right Z.add 0 l.

(** What [reset()] leaves. *)
Definition restored (a : register) : register :=
  {| poly := poly a; state := state_init a; state_init := state_init a;
     field_order := field_order a; poly_str := poly_str a |}.

(** An argument [from_lfsrs] can read: its polynomial and its initial
    state are not negative. *)
Definition readable (m : model) (a : register) : Prop :=
  built m a /\ 0 <= poly a /\ 0 <= state_init a.

(** The integer whose binary representation is the concatenation, first
    register most significant, of the values [f] of a list of registers,
    each zero-padded to the field order of its register and never cut: a
    value of more bits than the field order keeps them all. *)
Definition elongated (f : register -> Z) (args : list register) : Z :=
  bit_concat ((fun a => (width (field_order a) (f a), f a)) <$> args).

(** The polynomials for which a composite register has the sum of the field
    orders: those the specification accepts and, for the external-feedback
    model, not a power of two. *)
Definition composable (m : model) (p : Z) : Prop :=
  match m with
  | Fibonacci => 2 <= p /\ forall k, p <> 2 ^ k
  | Galois => 1 <= p
  end.

(** The terms of the algebraic form of the external-feedback model:
    [x ^ k] for the digits before the last two, [x] for the digit before
    the last, [1] for the last. *)
Definition fibonacci_terms (fo : Z) (bit : Z -> bool) : list str :=
  ((fun i => lit "x ^ " ++ str_int (fo - i - 1))
     <$> List.filter bit (range 0 (fo - 2)))
  ++ (if bit (fo - 2) then [lit "x"] else [])
  ++ (if bit (fo - 1) then [lit "1"] else []).

(** Two registers with the same polynomial and the same initial state. *)
Definition same_origin (a b : register) : Prop :=
  poly a = poly b /\ state_init a = state_init b.

(** ** Loops *)

Lemma for_each_app {S X} (xs ys : list X) (body : S -> X -> result S) s :
  for_each (xs ++ ys) body s
  = (s' <- for_each xs body s ;; for_each ys body s').
Proof.
  revert s. induction xs as [|x xs IH]; intros s; simpl; [reflexivity|].
  destruct (body s x); simpl; auto.
Qed.

Lemma range_cons a b : a < b -> range a b = a :: range (a + 1) b.
Proof.
  intros H. unfold range. rewrite seqZ_cons by lia.
  f_equal. f_equal; lia.
Qed.

Lemma range_nil a b : b <= a -> range a b = [].
Proof. intros H. unfold range. apply seqZ_nil. lia. Qed.

Lemma range_snoc a b : a <= b -> range a (b + 1) = range a b ++ [b].
Proof.
  intros H. unfold range.
  replace (b + 1 - a) with ((b - a) + 1) by lia.
  rewrite seqZ_app by lia. rewrite (seqZ_cons _ 1) by lia.
  rewrite (seqZ_nil _ (Z.pred 1)) by lia. do 3 f_equal. lia.
Qed.

Lemma elem_of_range a b x : x ∈ range a b <-> a <= x < b.
Proof. unfold range. rewrite elem_of_seqZ. lia. Qed.

Lemma length_range a b : length (range a b) = Z.to_nat (b - a).
Proof. apply length_seqZ. Qed.

(** A loop whose body never raises and does not look at the loop
    variable is the iteration of the body. *)
Lemma for_each_const {S} (f : S -> result S) (n : Z) s :
  for_each (range 0 n) (fun s (_ : Z) => f s) s
  = Nat.iter (Z.to_nat n) (fun c => bind c f) (Ok s).
Proof.
  destruct (Z.le_gt_cases n 0) as [Hn|Hn].
  { rewrite range_nil by lia. replace (Z.to_nat n) with O by lia. reflexivity. }
  rewrite <- (Z2Nat.id n) at 1 by lia.
  induction (Z.to_nat n) as [|k IH]; [reflexivity|].
  rewrite Nat2Z.inj_succ, <- Z.add_1_r, range_snoc by lia.
  rewrite for_each_app, IH. simpl.
  destruct (Nat.iter k _ _); simpl; [|reflexivity].
  destruct (f a); reflexivity.
Qed.

Lemma fmap_range_ext {A} (f g : Z -> A) a b :
  (forall x, a <= x < b -> f x = g x) -> f <$> range a b = g <$> range a b.
Proof.
  intros H. apply Forall_fmap_ext_1, Forall_seqZ.
  intros x Hx. apply H. lia.
Qed.

Lemma range_split a k b : a <= k <= b -> range a b = range a k ++ range k b.
Proof.
  intros H. unfold range.
  replace (b - a) with ((k - a) + (b - k)) by lia.
  rewrite seqZ_app by lia. do 2 f_equal. lia.
Qed.

Lemma range_shift k b : range k (k + b) = Z.add k <$> range 0 b.
Proof.
  unfold range. rewrite fmap_add_seqZ. f_equal; lia.
Qed.

(** ** Binary digits *)

Lemma bin_pos_bits p acc :
  bin_pos p acc
  = ((fun i => bit_char (Z.testbit (Zpos p) (Z.log2 (Zpos p) - i)))
       <$> range 0 (Z.log2 (Zpos p) + 1)) ++ acc.
Proof.
  revert acc. induction p as [p IH|p IH|]; intros acc; [| |reflexivity].
  - cbn [bin_pos]. rewrite IH.
    assert (Hl : Z.log2 (Zpos p~1) = Z.log2 (Zpos p) + 1).
    { rewrite Pos2Z.inj_xI, Z.log2_succ_double by lia. lia. }
    pose proof (Z.log2_nonneg (Zpos p)) as Hn.
    rewrite Hl, (range_snoc 0 (Z.log2 (Zpos p) + 1)) by lia.
    rewrite fmap_app, <- app_assoc. cbn [fmap list_fmap app].
    f_equal.
    + apply fmap_range_ext. intros x Hx. f_equal.
      replace (Z.log2 (Zpos p) + 1 - x) with (Z.succ (Z.log2 (Zpos p) - x)) by lia.
      rewrite Pos2Z.inj_xI, Z.testbit_odd_succ by lia. reflexivity.
    + rewrite Z.sub_diag. reflexivity.
  - cbn [bin_pos]. rewrite IH.
    assert (Hl : Z.log2 (Zpos p~0) = Z.log2 (Zpos p) + 1).
    { rewrite Pos2Z.inj_xO, Z.log2_double by lia. lia. }
    pose proof (Z.log2_nonneg (Zpos p)) as Hn.
    rewrite Hl, (range_snoc 0 (Z.log2 (Zpos p) + 1)) by lia.
    rewrite fmap_app, <- app_assoc. cbn [fmap list_fmap app].
    f_equal.
    + apply fmap_range_ext. intros x Hx. f_equal.
      replace (Z.log2 (Zpos p) + 1 - x) with (Z.succ (Z.log2 (Zpos p) - x)) by lia.
      rewrite Pos2Z.inj_xO, Z.testbit_even_succ by lia. reflexivity.
    + rewrite Z.sub_diag. reflexivity.
Qed.

Lemma bin_digits_bits n :
  0 <= n ->
  bin_digits n
  = (fun i => bit_char (Z.testbit n (Z.log2 n - i))) <$> range 0 (Z.log2 n + 1).
Proof.
  intros Hn. destruct n as [|p|p]; [reflexivity| |lia].
  unfold bin_digits. rewrite bin_pos_bits. apply app_nil_r.
Qed.

Lemma len_fmap_range {A} (f : Z -> A) b : 0 <= b -> len (f <$> range 0 b) = b.
Proof.
  intros H. unfold len. rewrite length_fmap, length_range. lia.
Qed.

(** The characters of [f'{n:0{w}b}'] are the bits of [n], the most
    significant first, over [width w n] positions. *)
Lemma format_b_bits w n :
  0 <= n ->
  format_b w n
  = (fun i => bit_char (stage (width w n) n i)) <$> range 0 (width w n).
Proof.
  intros Hn. unfold format_b.
  destruct (Z.ltb_spec n 0) as [?|_]; [lia|].
  pose proof (Z.log2_nonneg n) as Hl.
  rewrite bin_digits_bits, len_fmap_range by lia.
  remember (Z.log2 n + 1) as bl eqn:Hbl.
  remember (Z.to_nat (w - bl)) as k eqn:Hk.
  assert (HL : width w n = Z.of_nat k + bl) by (unfold width; lia).
  rewrite HL. rewrite (range_split 0 (Z.of_nat k) (Z.of_nat k + bl)) by lia.
  rewrite fmap_app. f_equal.
  - rewrite (const_fmap _ _ "0"%char).
    + rewrite length_range. f_equal. lia.
    + intros i x Hx. apply list_elem_of_lookup_2, elem_of_range in Hx.
      unfold stage. rewrite Z.bits_above_log2 by lia. reflexivity.
  - rewrite range_shift, <- list_fmap_compose.
    apply fmap_range_ext. intros x Hx. unfold stage. cbn. do 2 f_equal. lia.
Qed.

Lemma width_in_range w n : 1 <= w -> 0 <= n < 2 ^ w -> width w n = w.
Proof.
  intros Hw [Hn Hlt]. unfold width.
  destruct (Z.eq_dec n 0) as [->|Hne]; [cbn; lia|].
  assert (Z.log2 n < w) by (apply Z.log2_lt_pow2; lia). lia.
Qed.

Lemma width_ge w n : w <= width w n /\ 1 <= width w n.
Proof. unfold width. pose proof (Z.log2_nonneg n). lia. Qed.

(** ** Reading binary digits back *)

Lemma int2_digits_bits bs acc :
  int2_digits acc (bit_char <$> bs)
  = Ok (fold_left (fun acc b => 2 * acc + Z.b2z b) bs acc).
Proof.
  revert acc. induction bs as [|b bs IH]; intros acc; [reflexivity|].
  cbn [fmap list_fmap int2_digits fold_left].
  destruct b; cbn; apply IH.
Qed.

Lemma int2_bits bs : bs <> [] -> int2 (bit_char <$> bs) = Ok (of_bits bs).
Proof.
  intros Hne. destruct bs as [|b bs]; [done|].
  unfold of_bits. rewrite <- int2_digits_bits.
  destruct b; reflexivity.
Qed.

Lemma join_nil_cons (s : str) (l : list str) : join [] (s :: l) = s ++ join [] l.
Proof. destruct l; cbn; [by rewrite app_nil_r | reflexivity]. Qed.

Lemma join_str_int bs : join [] (str_int <$> (Z.b2z <$> bs)) = bit_char <$> bs.
Proof.
  induction bs as [|b bs IH]; [reflexivity|].
  cbn [fmap list_fmap]. rewrite join_nil_cons. cbn [fmap] in IH. rewrite IH.
  destruct b; reflexivity.
Qed.

Lemma comprehension_bits bs :
  comprehension (fun x => int2 [x]) (bit_char <$> bs) = Ok (Z.b2z <$> bs).
Proof.
  induction bs as [|b bs IH]; [reflexivity|].
  cbn [fmap list_fmap comprehension]. cbn [fmap] in IH. rewrite IH.
  destruct b; reflexivity.
Qed.

Lemma fold_bits_range bs acc :
  0 <= acc ->
  acc * 2 ^ len bs
  <= fold_left (fun acc b => 2 * acc + Z.b2z b) bs acc
  < (acc + 1) * 2 ^ len bs.
Proof.
  revert acc. induction bs as [|b bs IH]; intros acc Hacc.
  - unfold len. cbn [length fold_left]. change (2 ^ Z.of_nat 0) with 1. lia.
  - cbn [fold_left]. unfold len in *. cbn [length].
    rewrite Nat2Z.inj_succ, Z.pow_succ_r by lia.
    assert (Hb : 0 <= Z.b2z b <= 1) by (destruct b; cbn; lia).
    specialize (IH (2 * acc + Z.b2z b) ltac:(lia)).
    pose proof (Z.pow_pos_nonneg 2 (Z.of_nat (length bs)) ltac:(lia) ltac:(lia)).
    nia.
Qed.

Lemma of_bits_range bs : 0 <= of_bits bs < 2 ^ len bs.
Proof. pose proof (fold_bits_range bs 0). unfold of_bits. lia. Qed.

(** ** Indexing lists given by a function on positions *)

Ltac list_len :=
  repeat first
    [ rewrite length_app | rewrite length_take | rewrite length_drop
    | rewrite length_insert | rewrite length_replicate
    | rewrite length_fmap | rewrite length_range ].

Lemma lookup_fmap_range {A} (f : Z -> A) L (i : nat) :
  (f <$> range 0 L) !! i
  = if decide (Z.of_nat i < L) then Some (f (Z.of_nat i)) else None.
Proof.
  rewrite list_lookup_fmap. unfold range. case_decide.
  - rewrite lookup_seqZ_lt by lia. reflexivity.
  - rewrite lookup_seqZ_ge by lia. reflexivity.
Qed.

Lemma resolve_in n i : 0 <= i < n -> resolve n i = Some (Z.to_nat i).
Proof.
  intros H. unfold resolve.
  destruct (Z.ltb_spec i 0); [lia|].
  destruct (Z.leb_spec 0 i); [|lia].
  destruct (Z.ltb_spec i n); [reflexivity|lia].
Qed.

Lemma getitem_fmap_range {A} (f : Z -> A) L x :
  0 <= x < L -> getitem (f <$> range 0 L) x = Ok (f x).
Proof.
  intros H. unfold getitem.
  rewrite len_fmap_range, resolve_in by lia.
  rewrite lookup_fmap_range. case_decide; [|lia].
  rewrite Z2Nat.id by lia. reflexivity.
Qed.

Lemma setitem_in {A} (l : list A) i x :
  0 <= i < len l -> setitem l i x = Ok (<[Z.to_nat i := x]> l).
Proof. intros H. unfold setitem. rewrite resolve_in by lia. reflexivity. Qed.

Lemma eqb_bit_char b : Ascii.eqb (bit_char b) "1" = b.
Proof. destruct b; reflexivity. Qed.

Lemma lxor_b2z a b : Z.lxor (Z.b2z a) (Z.b2z b) = Z.b2z (xorb a b).
Proof. destruct a, b; reflexivity. Qed.

Lemma fold_lxor_b2z bs a :
  fold_left Z.lxor (Z.b2z <$> bs) (Z.b2z a) = Z.b2z (xorb a (xor_all bs)).
Proof.
  revert a. induction bs as [|b bs IH]; intros a.
  - cbn. by rewrite xorb_false_r.
  - rewrite fmap_cons. cbn [fold_left]. rewrite lxor_b2z, IH.
    cbn [xor_all fold_right]. by rewrite xorb_assoc.
Qed.

Lemma reduce_xor bs :
  bs <> [] -> reduce Z.lxor (Z.b2z <$> bs) = Ok (Z.b2z (xor_all bs)).
Proof.
  destruct bs as [|a bs]; [done|]. intros _.
  rewrite fmap_cons. cbn [reduce]. by rewrite fold_lxor_b2z.
Qed.

(** ** The round function of the external-feedback model *)

Lemma fibonacci_feedback_loop (ps : str) (se : list Z) (T S : Z -> bool) xs acc :
  (forall x, x ∈ xs ->
     getitem ps x = Ok (bit_char (T x)) /\ getitem se x = Ok (Z.b2z (S x))) ->
  for_each xs
    (fun feedback x =>
       c <- getitem ps x ;;
       if Ascii.eqb c "1"
       then (b <- getitem se x ;; Ok (feedback ++ [b]))
       else Ok feedback)
    acc
  = Ok (acc ++ (Z.b2z <$> (S <$> List.filter T xs))).
Proof.
  match goal with |- context [for_each _ ?b _] => set (body := b) end.
  revert acc. induction xs as [|x xs IH]; intros acc H.
  - cbn. by rewrite app_nil_r.
  - destruct (H x) as [Hp Hs]; [left|].
    assert (IH' := fun acc => IH acc (fun y Hy => H y (list_elem_of_further y x xs Hy))).
    cbn [for_each]. unfold body at 1. rewrite Hp. cbn [bind].
    rewrite eqb_bit_char. cbn [List.filter]. destruct (T x).
    + rewrite Hs. cbn [bind]. rewrite IH'.
      rewrite !fmap_cons. by rewrite <- app_assoc.
    + cbn [bind]. by rewrite IH'.
Qed.

Lemma fibonacci_shift {A} (g : Z -> A) (fo L : Z) (v : A) :
  1 <= fo <= L ->
  setitem
    (slice_assign (g <$> range 0 L) 0 (fo - 1) (slice (g <$> range 0 L) 1 fo))
    (fo - 1) v
  = Ok ((fun i => if i <? fo - 1 then g (i + 1)
                  else if i =? fo - 1 then v else g i) <$> range 0 L).
Proof.
  intros H. unfold slice_assign, slice, clamp.
  rewrite !len_fmap_range by lia.
  destruct (Z.ltb_spec 0 0); [lia|]. destruct (Z.ltb_spec (fo - 1) 0); [lia|].
  destruct (Z.ltb_spec 1 0); [lia|]. destruct (Z.ltb_spec fo 0); [lia|].
  rewrite !Z.min_l by lia.
  change (Z.to_nat 0) with 0%nat. change (Z.to_nat 1) with 1%nat.
  rewrite Nat.max_r by lia. rewrite take_0, app_nil_l.
  rewrite setitem_in.
  2:{ unfold len. list_len. lia. }
  f_equal. apply list_eq. intros i.
  rewrite list_lookup_insert, lookup_app, lookup_take, !lookup_drop,
    !lookup_fmap_range.
  list_len.
  destruct (Z.ltb_spec (Z.of_nat i) (fo - 1)); destruct (Z.eqb_spec (Z.of_nat i) (fo - 1));
    repeat case_decide; try lia; try reflexivity.
  all: try (f_equal; f_equal; lia).
Qed.

Lemma format_b_stages w n :
  0 <= n ->
  format_b w n = bit_char <$> (stage (width w n) n <$> range 0 (width w n)).
Proof.
  intros Hn. rewrite format_b_bits by done.
  by rewrite <- list_fmap_compose.
Qed.

Lemma stages_nonempty {A} (f : Z -> A) L : 1 <= L -> f <$> range 0 L <> [].
Proof. intros H. rewrite range_cons by lia. done. Qed.

(** What [ceil(log(poly, 2).real)] is when it is a number: the exact
    ceiling for a magnitude below [2^29], at least 29 from there on. *)
Lemma ceil_log2_ok p fo :
  LFSR.ceil_log2 float_excess p = Ok fo ->
  p <> 0 /\ 0 <= fo
  /\ (Z.abs p < 2 ^ 29 -> fo = Z.log2_up (Z.abs p))
  /\ (2 ^ 29 <= Z.abs p -> 29 <= fo).
Proof.
  unfold LFSR.ceil_log2.
  destruct (Z.eqb_spec p 0) as [?|Hne]; [discriminate|].
  destruct (Z.ltb_spec (Z.abs p) (2 ^ 29)) as [Hlt|Hge].
  - intros [= <-]. split; [done|]. split; [apply Z.log2_up_nonneg|].
    split; [done|lia].
  - destruct (float_excess p) as [e|?]; cbn [bind]; [|discriminate].
    intros [= <-]. split; [done|]. split; [lia|]. split; lia.
Qed.

Lemma ceil_log2_exact p :
  p <> 0 -> Z.abs p < 2 ^ 29 ->
  LFSR.ceil_log2 float_excess p = Ok (Z.log2_up (Z.abs p)).
Proof.
  intros Hne Hlt. unfold LFSR.ceil_log2.
  destruct (Z.eqb_spec p 0); [done|].
  destruct (Z.ltb_spec (Z.abs p) (2 ^ 29)); [reflexivity|lia].
Qed.

Lemma built_fibonacci_inv r :
  built Fibonacci r ->
  LFSR.ceil_log2 float_excess (poly r) = Ok (field_order r)
  /\ poly_str r = format_b (field_order r) (poly r).
Proof.
  unfold built, build_poly, LFSR.build_poly.
  destruct (LFSR.ceil_log2 float_excess (poly r)) as [fo|?]; cbn [bind];
    [|discriminate].
  intros [= <- <-]. done.
Qed.

Lemma padded_tap_tap fo p i :
  fo <= Z.log2 p + 1 -> padded_tap fo p i = tap p i.
Proof. intros H. unfold padded_tap, tap. f_equal. lia. Qed.

(** A register with at least one stage has a tapped stage. *)
Lemma padded_tap_some fo p :
  1 <= p -> 1 <= fo -> exists i, 0 <= i < fo /\ padded_tap fo p i = true.
Proof.
  intros Hp Hfo. pose proof (Z.log2_nonneg p) as Hl.
  exists (Z.max 0 (fo - 1 - Z.log2 p)). split; [lia|]. unfold padded_tap.
  replace (Z.max fo (Z.log2 p + 1) - 1 - Z.max 0 (fo - 1 - Z.log2 p))
    with (Z.log2 p) by lia.
  apply Z.bit_log2. lia.
Qed.

Lemma filter_range_nonempty (f : Z -> bool) a b i :
  a <= i < b -> f i = true -> List.filter f (range a b) <> [].
Proof.
  intros Hi Hf E.
  assert (H : In i (List.filter f (range a b))).
  { apply List.filter_In. split; [|done].
    apply list_elem_of_In, elem_of_range. lia. }
  rewrite E in H. destruct H.
Qed.

(** What [build_poly] leaves in a register of the external-feedback model
    whose polynomial is at least 1: a field order that is not negative, at
    least 1 for a polynomial of at least 2, the exact ceiling of the
    logarithm for a polynomial below [2^29]; and in [poly_str] the digits
    of the polynomial padded to the field order. *)
Lemma built_fibonacci r :
  built Fibonacci r -> 1 <= poly r ->
  0 <= field_order r
  /\ (2 <= poly r -> 1 <= field_order r)
  /\ (poly r < 2 ^ 29 -> field_order r = Z.log2_up (poly r))
  /\ poly_str r
     = bit_char <$> (padded_tap (field_order r) (poly r)
                       <$> range 0 (width (field_order r) (poly r))).
Proof.
  intros Hb Hp. destruct (built_fibonacci_inv r Hb) as [Hc Hps].
  destruct (ceil_log2_ok _ _ Hc) as (_ & H0 & Hlt & Hge).
  rewrite Z.abs_eq in Hlt, Hge by lia.
  split; [done|]. split; [|split; [done|]].
  - intros Hp2. destruct (Z.lt_ge_cases (poly r) (2 ^ 29)) as [Hs|Hs].
    + rewrite Hlt by done.
      pose proof (Z.log2_up_pos (poly r) ltac:(lia)). lia.
    + specialize (Hge Hs). lia.
  - rewrite Hps. apply format_b_stages. lia.
Qed.

(** Below [2^29] the field order does not exceed the number of bits of the
    polynomial, so that [poly_str] is its minimal binary representation. *)
Lemma built_fibonacci_exact r :
  built Fibonacci r -> 1 <= poly r < 2 ^ 29 ->
  field_order r = Z.log2_up (poly r)
  /\ field_order r <= Z.log2 (poly r) + 1.
Proof.
  intros Hb Hp. destruct (built_fibonacci r Hb ltac:(lia)) as (_ & _ & Hfo & _).
  pose proof (Z.le_log2_up_succ_log2 (poly r)). rewrite Hfo by lia.
  split; [done|lia].
Qed.

Lemma tap_0 p : 1 <= p -> tap p 0 = true.
Proof. intros H. unfold tap. rewrite Z.sub_0_r. apply Z.bit_log2. lia. Qed.

Lemma fibonacci_fround r :
  built Fibonacci r -> 2 <= poly r -> 0 <= state r ->
  LFSR.fround r
  = Ok (set_state r
          (of_bits (fibonacci_stages (field_order r)
                      (width (field_order r) (state r))
                      (padded_tap (field_order r) (poly r)) (state r)
                    <$> range 0 (width (field_order r) (state r))))).
Proof.
  intros Hb Hp Hs.
  destruct (built_fibonacci r Hb ltac:(lia)) as (_ & Hfo & _ & Hps).
  specialize (Hfo Hp).
  pose proof (width_ge (field_order r) (state r)) as [HL1 HL2].
  pose proof (width_ge (field_order r) (poly r)) as [HP1 HP2].
  unfold LFSR.fround.
  remember (field_order r) as fo eqn:Efo.
  remember (width fo (state r)) as L eqn:EL.
  rewrite format_b_stages, <- EL, comprehension_bits by done.
  cbn [bind]. rewrite <- !list_fmap_compose.
  rewrite (fibonacci_feedback_loop _ _ (padded_tap fo (poly r))
             (stage L (state r))).
  2:{ intros x Hx%elem_of_range. split.
      - rewrite Hps, <- list_fmap_compose.
        rewrite getitem_fmap_range by lia. reflexivity.
      - rewrite getitem_fmap_range by lia. reflexivity. }
  cbn [bind app]. rewrite reduce_xor.
  2:{ destruct (padded_tap_some fo (poly r)) as (i & Hi & Ht); [lia|lia|].
      intros E%fmap_nil_inv. by apply (filter_range_nonempty _ 0 fo i) in E. }
  cbn [bind]. rewrite fibonacci_shift by lia. cbn [bind].
  match goal with
  | |- context [str_int <$> (?f <$> range 0 L)] =>
      replace (f <$> range 0 L)
        with (Z.b2z <$> (fibonacci_stages fo L (padded_tap fo (poly r))
                           (state r) <$> range 0 L))
  end.
  2:{ rewrite <- list_fmap_compose. apply fmap_range_ext. intros x Hx.
      unfold fibonacci_stages. cbn.
      destruct (x <? fo - 1); [reflexivity|].
      destruct (x =? fo - 1); reflexivity. }
  rewrite join_str_int, int2_bits by (apply stages_nonempty; lia).
  reflexivity.
Qed.

(** ** The round function of the internal-feedback model *)

Lemma galois_feedback_loop (ps : str) (se : list Z) (T S : Z -> bool) xs fb :
  (forall x, x ∈ xs ->
     getitem ps x = Ok (bit_char (T x)) /\ getitem se x = Ok (Z.b2z (S x))
     /\ 1 <= x <= len fb) ->
  getitem se 0 = Ok (Z.b2z (S 0)) ->
  for_each xs
    (fun feedback x =>
       c <- getitem ps x ;;
       if Ascii.eqb c "1"
       then (s0 <- getitem se 0 ;;
             sx <- getitem se x ;;
             setitem feedback (x - 1) (Z.lxor s0 sx))
       else (sx <- getitem se x ;;
             setitem feedback (x - 1) sx))
    fb
  = Ok (fold_left
          (fun fb x =>
             <[Z.to_nat (x - 1) :=
                 Z.b2z (if T x then xorb (S 0) (S x) else S x)]> fb)
          xs fb).
Proof.
  match goal with |- context [for_each _ ?b _] => set (body := b) end.
  intros H H0. revert fb H. induction xs as [|x xs IH]; intros fb H.
  - reflexivity.
  - destruct (H x) as (Hp & Hs & Hx); [left|].
    cbn [for_each fold_left]. unfold body at 1.
    rewrite Hp. cbn [bind]. rewrite eqb_bit_char.
    assert (Hin : forall v : Z, setitem fb (x - 1) v = Ok (<[Z.to_nat (x - 1) := v]> fb))
      by (intros v; apply setitem_in; lia).
    destruct (T x).
    + rewrite H0. cbn [bind]. rewrite Hs. cbn [bind].
      rewrite Hin, lxor_b2z. cbn [bind]. apply IH.
      intros y Hy. unfold len. rewrite length_insert. apply H. by right.
    + rewrite Hs. cbn [bind]. rewrite Hin. cbn [bind]. apply IH.
      intros y Hy. unfold len. rewrite length_insert. apply H. by right.
Qed.

Lemma length_fold_insert {A} (v : Z -> A) xs fb :
  length (fold_left (fun fb x => <[Z.to_nat (x - 1) := v x]> fb) xs fb)
  = length fb.
Proof.
  revert fb. induction xs as [|x xs IH]; intros fb; [reflexivity|].
  cbn [fold_left]. by rewrite IH, length_insert.
Qed.

Lemma lookup_fold_insert {A} (v : Z -> A) (n : nat) a fb (i : nat) :
  1 <= a ->
  fold_left (fun fb x => <[Z.to_nat (x - 1) := v x]> fb)
    (range a (a + Z.of_nat n)) fb !! i
  = if decide (a <= Z.of_nat i + 1 < a + Z.of_nat n /\ (i < length fb)%nat)
    then Some (v (Z.of_nat i + 1)) else fb !! i.
Proof.
  revert a fb. induction n as [|n IH]; intros a fb Ha.
  - rewrite range_nil by lia. cbn. case_decide; [lia|reflexivity].
  - rewrite range_cons by lia. cbn [fold_left].
    replace (a + Z.of_nat (S n)) with ((a + 1) + Z.of_nat n) by lia.
    rewrite IH by lia. rewrite length_insert, list_lookup_insert.
    repeat case_decide; try lia; try reflexivity.
    f_equal. f_equal. lia.
Qed.

Lemma galois_shift (T S : Z -> bool) (fo : Z) :
  1 <= fo ->
  setitem
    (fold_left
       (fun fb x =>
          <[Z.to_nat (x - 1) :=
              Z.b2z (if T x then xorb (S 0) (S x) else S x)]> fb)
       (range 1 fo) (replicate (Z.to_nat fo) 0))
    (fo - 1) (Z.b2z (S 0))
  = Ok (Z.b2z <$>
          ((fun j => if j <? fo - 1
                     then (if T (j + 1) then xorb (S 0) (S (j + 1))
                           else S (j + 1))
                     else S 0) <$> range 0 fo)).
Proof.
  intros H. rewrite setitem_in.
  2:{ unfold len. rewrite length_fold_insert, length_replicate. lia. }
  f_equal. apply list_eq. intros i.
  rewrite list_lookup_insert, length_fold_insert, length_replicate.
  replace (range 1 fo) with (range 1 (1 + Z.of_nat (Z.to_nat (fo - 1))))
    by (f_equal; lia).
  rewrite (lookup_fold_insert
             (fun x => Z.b2z (if T x then xorb (S 0) (S x) else S x)))
    by lia.
  rewrite length_replicate.
  rewrite <- list_fmap_compose, lookup_fmap_range. cbn.
  destruct (Z.ltb_spec (Z.of_nat i) (fo - 1)); repeat case_decide;
    try lia; try reflexivity.
  apply lookup_replicate_None. lia.
Qed.

(** What [build_poly] leaves in a register of the internal-feedback
    model. *)
Lemma built_galois r :
  built Galois r -> 0 <= poly r ->
  field_order r = Z.log2 (poly r) + 1
  /\ poly_str r = bit_char <$> (tap (poly r) <$> range 0 (Z.log2 (poly r) + 1)).
Proof.
  unfold built, build_poly, Galois_LFSR.build_poly. intros Hb Hp.
  injection Hb as Hfo Hps.
  pose proof (Z.log2_nonneg (poly r)) as Hl.
  assert (Hw : width 0 (poly r) = Z.log2 (poly r) + 1) by (unfold width; lia).
  assert (Hf : format_b 0 (poly r)
               = bit_char <$> (tap (poly r) <$> range 0 (Z.log2 (poly r) + 1))).
  { rewrite format_b_stages, Hw by lia. f_equal.
    apply fmap_range_ext. intros x Hx. unfold stage, tap. f_equal. lia. }
  split.
  - rewrite <- Hfo, Hf. unfold len. list_len. lia.
  - by rewrite <- Hps.
Qed.

Lemma galois_fround r :
  built Galois r -> 0 <= poly r -> 0 <= state r ->
  Galois_LFSR.fround r
  = Ok (set_state r
          (of_bits (galois_stages (field_order r)
                      (width (field_order r) (state r))
                      (tap (poly r)) (state r)
                    <$> range 0 (field_order r)))).
Proof.
  intros Hb Hp Hs.
  destruct (built_galois r Hb Hp) as (Hfo & Hps).
  pose proof (Z.log2_nonneg (poly r)) as Hl.
  pose proof (width_ge (field_order r) (state r)) as [HL1 HL2].
  unfold Galois_LFSR.fround.
  remember (field_order r) as fo eqn:Efo.
  remember (width fo (state r)) as L eqn:EL.
  rewrite format_b_stages, <- EL, comprehension_bits by done.
  cbn [bind]. rewrite <- !list_fmap_compose.
  assert (H0 : getitem (Z.b2z ∘ stage L (state r) <$> range 0 L) 0
               = Ok (Z.b2z (stage L (state r) 0)))
    by (rewrite getitem_fmap_range by lia; reflexivity).
  rewrite (galois_feedback_loop _ _ (tap (poly r)) (stage L (state r))).
  2:{ intros x Hx%elem_of_range. split; [|split].
      - rewrite Hps, <- list_fmap_compose.
        rewrite getitem_fmap_range by lia. reflexivity.
      - rewrite getitem_fmap_range by lia. reflexivity.
      - unfold len. rewrite length_replicate. lia. }
  2: exact H0.
  cbn [bind]. rewrite H0. cbn [bind].
  rewrite galois_shift by lia. cbn [bind].
  rewrite join_str_int, int2_bits by (apply stages_nonempty; lia).
  reflexivity.
Qed.

(** ** One round, for both models *)

Lemma ready_field_order m r : ready m r -> 1 <= field_order r.
Proof.
  intros (Hb & Hp & _). destruct m; cbn in Hp.
  - destruct (built_fibonacci r Hb ltac:(lia)) as (_ & H & _). by apply H.
  - destruct (built_galois r Hb ltac:(lia)) as (-> & _).
    pose proof (Z.log2_nonneg (poly r)). lia.
Qed.

Lemma fround_ready m r : ready m r -> fround m r = Ok (step m r).
Proof.
  intros (Hb & Hp & Hs). destruct m; cbn in Hp.
  - apply fibonacci_fround; assumption.
  - apply galois_fround; [assumption|lia|assumption].
Qed.

Lemma round_state_nonneg m fo p s : 0 <= round_state m fo p s.
Proof. unfold round_state. destruct m; apply of_bits_range. Qed.

Lemma step_ready m r : ready m r -> ready m (step m r).
Proof.
  intros (Hb & Hp & Hs). split; [exact Hb|]. split; [exact Hp|].
  apply round_state_nonneg.
Qed.

(** On a state within range the round is the rule of the specification
    over the digits of [poly_str]. *)
Lemma round_state_rule m fo p s :
  1 <= fo -> 0 <= s < 2 ^ fo ->
  round_state m fo p s = rule m fo (taps m fo p) s.
Proof.
  intros Hfo Hs. unfold round_state. rewrite width_in_range by lia.
  destruct m; cbn [rule taps]; unfold fibonacci_rule, galois_rule; f_equal;
    apply fmap_range_ext; intros x Hx.
  - unfold fibonacci_stages.
    destruct (Z.ltb_spec x (fo - 1)); [reflexivity|].
    destruct (Z.eqb_spec x (fo - 1)); [reflexivity|lia].
  - unfold galois_stages.
    destruct (x <? fo - 1); [|reflexivity].
    destruct (tap p (x + 1)); [apply xorb_comm|reflexivity].
Qed.

Lemma round_state_galois_range fo p s :
  0 <= fo -> round_state Galois fo p s < 2 ^ fo.
Proof.
  intros Hfo. unfold round_state.
  pose proof (of_bits_range
    (galois_stages fo (width fo s) (tap p) s <$> range 0 fo)) as H.
  rewrite len_fmap_range in H by lia. lia.
Qed.

Lemma round_state_fibonacci_range fo p s :
  1 <= fo -> 0 <= s < 2 ^ fo -> round_state Fibonacci fo p s < 2 ^ fo.
Proof.
  intros Hfo Hs. unfold round_state. rewrite width_in_range by lia.
  pose proof (of_bits_range
    (fibonacci_stages fo fo (padded_tap fo p) s <$> range 0 fo)) as H.
  rewrite len_fmap_range in H by lia. lia.
Qed.

Lemma step_in_range m r :
  ready m r -> (m = Fibonacci -> in_range r) -> in_range (step m r).
Proof.
  intros Hr Hin. pose proof (ready_field_order m r Hr) as Hfo.
  unfold in_range, step. cbn [state field_order set_state].
  split; [apply round_state_nonneg|]. destruct m.
  - apply round_state_fibonacci_range; [lia|]. by apply Hin.
  - apply round_state_galois_range. lia.
Qed.

(** ** Repeated rounds *)

Lemma iter_raise {A} (f : A -> result A) n e :
  Nat.iter n (fun c => bind c f) (Raise e) = Raise e.
Proof.
  induction n as [|n IH]; [reflexivity|]. by rewrite Nat.iter_succ, IH.
Qed.

Lemma rounds_S_front m n r :
  rounds m (S n) r = (r' <- fround m r ;; rounds m n r').
Proof.
  unfold rounds. rewrite Nat.iter_succ_r. cbn [bind].
  destruct (fround m r) as [r'|e]; cbn [bind]; [reflexivity|].
  apply iter_raise.
Qed.

Lemma next_times_rounds m n r :
  next_times m n r = (r' <- rounds m n r ;; Ok (r', state r')).
Proof.
  revert r. induction n as [|n IH]; intros r; [reflexivity|].
  cbn [next_times]. rewrite rounds_S_front. unfold next.
  destruct (fround m r) as [r'|e]; cbn [bind]; [apply IH|reflexivity].
Qed.

Lemma rounds_ready m n r :
  ready m r -> rounds m n r = Ok (Nat.iter n (step m) r)
               /\ ready m (Nat.iter n (step m) r).
Proof.
  intros Hr. induction n as [|n [IH1 IH2]]; [by split|].
  unfold rounds in *. rewrite !Nat.iter_succ, IH1. cbn [bind].
  split; [by apply fround_ready | by apply step_ready].
Qed.

Lemma iter_step_frame m n r :
  poly (Nat.iter n (step m) r) = poly r
  /\ field_order (Nat.iter n (step m) r) = field_order r
  /\ state_init (Nat.iter n (step m) r) = state_init r
  /\ poly_str (Nat.iter n (step m) r) = poly_str r.
Proof.
  induction n as [|n IH]; [done|]. rewrite Nat.iter_succ. exact IH.
Qed.

Lemma built_field_order_nonneg m r : built m r -> 0 <= field_order r.
Proof.
  destruct m.
  - intros Hb. destruct (built_fibonacci_inv r Hb) as [Hc _].
    by destruct (ceil_log2_ok _ _ Hc) as (_ & ? & _).
  - unfold built, build_poly, Galois_LFSR.build_poly.
    intros [= <- _]. unfold len. lia.
Qed.

Lemma cycle_rounds m r n :
  cycle m r n = (r' <- rounds m (Z.to_nat n) r ;; Ok (r', state r')).
Proof. unfold cycle, rounds. by rewrite for_each_const. Qed.

Lemma full_cycle_rounds m r :
  0 <= field_order r ->
  full_cycle m r
  = (r' <- rounds m (Z.to_nat (2 ^ field_order r)) r ;; Ok (r', state r')).
Proof.
  intros H. unfold full_cycle, pow2, rounds.
  destruct (Z.ltb_spec (field_order r) 0); [lia|]. cbn [bind].
  by rewrite for_each_const.
Qed.

Lemma length_trajectory m n r : length (trajectory m n r) = n.
Proof. revert r. induction n as [|n IH]; intros r; cbn; [done|]. by rewrite IH. Qed.

Lemma lookup_trajectory m n r (k : nat) :
  (k < n)%nat -> trajectory m n r !! k = Some (Nat.iter k (step m) r).
Proof.
  revert r k. induction n as [|n IH]; intros r k Hk; [lia|].
  destruct k as [|k]; [reflexivity|]. cbn [trajectory lookup list_lookup].
  rewrite IH by lia. by rewrite Nat.iter_succ_r.
Qed.

Lemma iter_in_range m n r :
  ready m r -> (m = Fibonacci -> in_range r) -> (1 <= n)%nat ->
  in_range (Nat.iter n (step m) r).
Proof.
  intros Hr Hin Hn. destruct n as [|n]; [lia|]. clear Hn.
  induction n as [|n IH].
  - by apply step_in_range.
  - rewrite Nat.iter_succ. apply step_in_range; [|intros _; exact IH].
    apply (rounds_ready m (S n) r Hr).
Qed.

Lemma init_built m p s r :
  init m p s = Ok r ->
  built m r /\ poly r = p /\ state r = s /\ state_init r = s.
Proof.
  unfold init, built. destruct (build_poly m p) as [[fo ps]|e] eqn:E;
    cbn [bind]; [|discriminate].
  intros [= <-]. cbn. by rewrite E.
Qed.

Lemma reset_built m r :
  built m r ->
  reset m r = Ok {| poly := poly r; state := state_init r;
                    state_init := state_init r;
                    field_order := field_order r; poly_str := poly_str r |}.
Proof. unfold built, reset, init. intros ->. reflexivity. Qed.

Lemma load_built m r s :
  built m r ->
  load m r s = Ok {| poly := poly r; state := s; state_init := s;
                     field_order := field_order r; poly_str := poly_str r |}.
Proof. unfold built, load, init. intros ->. reflexivity. Qed.

Lemma state_table_loop m n a r t :
  ready m r ->
  for_each (range a (a + Z.of_nat n))
    (fun '(self, t) x =>
       let t := {| Cycle := Cycle t ++ [x];
                   State := State t ++ [state self];
                   Register_State :=
                     Register_State t
                       ++ [format_b (field_order self) (state self)] |} in
       self <- fround m self ;;
       Ok (self, t))
    (r, t)
  = Ok (Nat.iter n (step m) r,
        {| Cycle := Cycle t ++ range a (a + Z.of_nat n);
           State := State t ++ (state <$> trajectory m n r);
           Register_State :=
             Register_State t
               ++ ((fun x => format_b (field_order x) (state x))
                     <$> trajectory m n r) |}).
Proof.
  match goal with |- context [for_each _ ?b _] => set (body := b) end.
  revert a r t. induction n as [|n IH]; intros a r t Hr.
  - rewrite range_nil by lia. cbn. rewrite !app_nil_r. by destruct t.
  - rewrite range_cons by lia. cbn [for_each]. unfold body at 1.
    rewrite fround_ready by done. cbn [bind].
    replace (a + Z.of_nat (S n)) with ((a + 1) + Z.of_nat n) by lia.
    rewrite IH by (by apply step_ready). cbn [Cycle State Register_State].
    rewrite Nat.iter_succ_r, <- !app_assoc. reflexivity.
Qed.

(** ** The one-step rules *)

Lemma next_ready m r :
  ready m r -> next m r = Ok (step m r, state (step m r)).
Proof. intros H. unfold next. by rewrite fround_ready. Qed.

Lemma filter_range_ext (f g : Z -> bool) a b :
  (forall x, a <= x < b -> f x = g x) ->
  List.filter f (range a b) = List.filter g (range a b).
Proof.
  intros H. apply List.filter_ext_in. intros x Hx. apply H.
  by apply list_elem_of_In, elem_of_range in Hx.
Qed.

(** The one-step rule of the external-feedback model, as the program has
    it.  For a polynomial of at least 2 and a state within
    [0, 2^field_order), [next()] returns the state the rule of the
    specification gives when the taps are the digits of [poly_str], the
    polynomial padded to [field_order] digits: the feedback is the XOR of
    the tapped stages, the stages move up by one and the feedback enters at
    the last stage.  The result depends on the taps at the positions
    [0, field_order) alone.  When the field order does not exceed the number
    of bits of the polynomial, as it does not for any polynomial below
    [2^29], the taps are the bits of the minimal binary representation.  The
    example with polynomial 0b1011 and state 0b0001 yields 0b0011. *)
Theorem fibonacci_next_padded_rule (r : register) :
  built Fibonacci r -> 2 <= poly r -> 0 <= state r < 2 ^ field_order r ->
  next Fibonacci r
  = Ok (set_state r
          (fibonacci_rule (field_order r)
             (padded_tap (field_order r) (poly r)) (state r)),
        fibonacci_rule (field_order r)
          (padded_tap (field_order r) (poly r)) (state r))
  /\ (forall t : Z -> bool,
        (forall i, 0 <= i < field_order r ->
           t i = padded_tap (field_order r) (poly r) i) ->
        fibonacci_rule (field_order r) t (state r)
        = fibonacci_rule (field_order r)
            (padded_tap (field_order r) (poly r)) (state r))
  /\ (field_order r <= Z.log2 (poly r) + 1 ->
      forall i, padded_tap (field_order r) (poly r) i = tap (poly r) i)
  /\ (poly r < 2 ^ 29 -> field_order r <= Z.log2 (poly r) + 1)
  /\ (let* r0 := init Fibonacci 11 1 in next Fibonacci r0)
     = Ok ({| poly := 11; state := 3; state_init := 1; field_order := 4;
              poly_str := lit "1011" |}, 3).
Proof.
  intros Hb Hp Hs.
  assert (Hr : ready Fibonacci r) by (split; [done|split; [done|lia]]).
  pose proof (ready_field_order _ _ Hr) as Hfo.
  split; [|split; [|split; [|split]]].
  - rewrite next_ready by done. unfold step. cbn [state set_state].
    by rewrite (round_state_rule Fibonacci) by lia.
  - intros t Ht. unfold fibonacci_rule.
    rewrite (filter_range_ext t (padded_tap (field_order r) (poly r))) by done.
    reflexivity.
  - intros Hle i. by apply padded_tap_tap.
  - intros Hlt. by apply built_fibonacci_exact; [|lia].
  - reflexivity.
Qed.

Lemma ceil_log2_beyond p :
  2 ^ 29 <= Z.abs p ->
  LFSR.ceil_log2 float_excess p
  = (e <- float_excess p ;; Ok (29 + Z.of_nat e)).
Proof.
  intros Hge. unfold LFSR.ceil_log2.
  destruct (Z.eqb_spec p 0) as [->|_]; [cbn in Hge; lia|].
  destruct (Z.ltb_spec (Z.abs p) (2 ^ 29)); [lia|reflexivity].
Qed.

Lemma init_fibonacci_beyond p s e :
  2 ^ 29 <= Z.abs p -> float_excess p = Ok e ->
  init Fibonacci p s
  = Ok {| poly := p; state := s; state_init := s;
          field_order := 29 + Z.of_nat e;
          poly_str := format_b (29 + Z.of_nat e) p |}.
Proof.
  intros Hge He. unfold init. cbn [build_poly]. unfold LFSR.build_poly.
  rewrite ceil_log2_beyond, He by done. reflexivity.
Qed.

(** C1 fails on the program.  For the polynomial [2^51 - 1] double
    precision puts the logarithm at 51.00000000000001, so the constructor
    sets the field order to 52, one more than the polynomial has bits.
    [poly_str] is then the 51 ones of the polynomial behind a padding zero:
    stage 0 is not tapped and stage 51 is.  From the state [2^51], which is
    within range and has stage 0 alone set, [next()] returns 0, while the
    rule of the specification, whose taps are the bits of the minimal binary
    representation, taps stage 0 and gives 1. *)
Theorem fibonacci_next_beyond_exact_range :
  float_excess (2 ^ 51 - 1) = Ok 23%nat ->
  exists r,
    init Fibonacci (2 ^ 51 - 1) (2 ^ 51) = Ok r
    /\ field_order r = 52
    /\ poly_str r = "0"%char :: replicate 51 "1"%char
    /\ 0 <= state r < 2 ^ field_order r
    /\ next Fibonacci r = Ok (set_state r 0, 0)
    /\ fibonacci_rule (field_order r) (tap (poly r)) (state r) = 1.
Proof.
  intros He. eexists. split.
  - apply init_fibonacci_beyond; [|exact He]. vm_compute. discriminate.
  - cbn [field_order poly_str state poly].
    split; [reflexivity|]. split; [vm_compute; reflexivity|].
    split; [split; vm_compute; [discriminate|reflexivity]|].
    split; vm_compute; reflexivity.
Qed.

(** C2.  For the internal-feedback register with a polynomial of at least
    1 and a state within [0, 2^field_order), [next()] returns exactly the
    state the one-step rule of the specification gives: with [msb] stage 0,
    new stage [i-1] is stage [i] XOR [msb] where tap [i] is set and stage
    [i] otherwise, for [i] in [1, field_order); the last new stage is
    [msb]; the new stages are read back with stage 0 most significant.
    Tap 0 is never consulted, and the example with polynomial 0b10011 and
    state 0b00001 yields 0b00010. *)
Theorem galois_next_rule (r : register) :
  built Galois r -> 1 <= poly r -> 0 <= state r < 2 ^ field_order r ->
  next Galois r
  = Ok (set_state r (galois_rule (field_order r) (tap (poly r)) (state r)),
        galois_rule (field_order r) (tap (poly r)) (state r))
  /\ (forall t : Z -> bool,
        (forall i, 1 <= i < field_order r -> t i = tap (poly r) i) ->
        galois_rule (field_order r) t (state r)
        = galois_rule (field_order r) (tap (poly r)) (state r))
  /\ (let* r0 := init Galois 19 1 in next Galois r0)
     = Ok ({| poly := 19; state := 2; state_init := 1; field_order := 5;
              poly_str := lit "10011" |}, 2).
Proof.
  intros Hb Hp Hs.
  assert (Hr : ready Galois r) by (split; [done|split; [done|lia]]).
  pose proof (ready_field_order _ _ Hr) as Hfo.
  split; [|split].
  - rewrite next_ready by done. unfold step. cbn [state set_state].
    by rewrite (round_state_rule Galois) by lia.
  - intros t Ht. unfold galois_rule. f_equal.
    apply fmap_range_ext. intros x Hx.
    destruct (Z.ltb_spec x (field_order r - 1)); [|reflexivity].
    by rewrite Ht by lia.
  - reflexivity.
Qed.

(** ** Cycling and enumeration *)

Lemma state_table_trajectory m r :
  ready m r ->
  state_table m r
  = Ok ({| poly := poly r; state := state_init r;
           state_init := state_init r; field_order := field_order r;
           poly_str := poly_str r |},
        {| Cycle := range 0 (2 ^ field_order r);
           State := state <$> trajectory m (Z.to_nat (2 ^ field_order r)) r;
           Register_State :=
             (fun x => format_b (field_order r) (state x))
               <$> trajectory m (Z.to_nat (2 ^ field_order r)) r |}).
Proof.
  intros Hr. pose proof Hr as (Hb & _).
  pose proof (built_field_order_nonneg m r Hb) as Hfo.
  pose proof (Z.pow_pos_nonneg 2 (field_order r) ltac:(lia) Hfo) as Hpow.
  set (n := Z.to_nat (2 ^ field_order r)).
  unfold state_table, pow2.
  destruct (Z.ltb_spec (field_order r) 0); [lia|]. cbn [bind].
  replace (2 ^ field_order r) with (0 + Z.of_nat n) at 1 by lia.
  rewrite state_table_loop by done. cbn [bind app Cycle State Register_State].
  pose proof (iter_step_frame m n r) as (Ep & Ef & Ei & Es).
  rewrite reset_built by apply (rounds_ready m n r Hr).
  rewrite Ep, Ef, Ei, Es. cbn [bind]. do 3 f_equal.
  - f_equal. lia.
  - apply list_fmap_ext. intros k x Hx.
    pose proof (lookup_lt_Some _ _ _ Hx) as Hk.
    rewrite length_trajectory in Hk.
    rewrite lookup_trajectory in Hx by done. injection Hx as <-.
    by destruct (iter_step_frame m k r) as (_ & -> & _).
Qed.

(** C6.  For both models, [cycle(rounds)] with [rounds >= 0] returns what
    [rounds] sequential calls of [next()] return, [cycle(0)] changes nothing
    and returns the current state, and [full_cycle()] returns what
    [cycle(2^field_order)] returns.  On a register whose polynomial the
    specification accepts and whose state is not negative, all of them do
    return a state. *)
Theorem cycle_is_repeated_next (m : model) (r : register) (n : Z) :
  built m r -> 0 <= n ->
  cycle m r n = next_times m (Z.to_nat n) r
  /\ cycle m r 0 = Ok (r, state r)
  /\ full_cycle m r = cycle m r (2 ^ field_order r)
  /\ (valid_poly m (poly r) -> 0 <= state r ->
      (exists r', cycle m r n = Ok (r', state r'))
      /\ (exists r', full_cycle m r = Ok (r', state r'))).
Proof.
  intros Hb Hn.
  pose proof (built_field_order_nonneg m r Hb) as Hfo.
  split; [|split; [|split]].
  - by rewrite cycle_rounds, next_times_rounds.
  - reflexivity.
  - by rewrite full_cycle_rounds, cycle_rounds.
  - intros Hp Hs. assert (Hr : ready m r) by done. split.
    + rewrite cycle_rounds.
      destruct (rounds_ready m (Z.to_nat n) r Hr) as [-> _]. by eexists.
    + rewrite full_cycle_rounds by done.
      destruct (rounds_ready m (Z.to_nat (2 ^ field_order r)) r Hr) as [-> _].
      by eexists.
Qed.

(** C7.  For both models, [state_table()] produces [2^field_order] records
    in order: the cycle indices 0, 1, ..., the states, and the states as bit
    strings.  Record 0 holds the state the register had before the call and
    each later record holds the state one [next()] after the record before
    it.  After the call the state is the initial state and the polynomial,
    the field order and the initial state are what they were. *)
Theorem state_table_enumerates (m : model) (r : register) :
  built m r -> valid_poly m (poly r) -> 0 <= state r ->
  exists regs : list register,
    state_table m r
    = Ok ({| poly := poly r; state := state_init r;
             state_init := state_init r; field_order := field_order r;
             poly_str := poly_str r |},
          {| Cycle := range 0 (2 ^ field_order r);
             State := state <$> regs;
             Register_State :=
               (fun x => format_b (field_order r) (state x)) <$> regs |})
    /\ len regs = 2 ^ field_order r
    /\ regs !! 0%nat = Some r
    /\ (forall (k : nat) a b,
          regs !! k = Some a -> regs !! S k = Some b ->
          next m a = Ok (b, state b)).
Proof.
  intros Hb Hp Hs. assert (Hr : ready m r) by done.
  pose proof (built_field_order_nonneg m r Hb) as Hfo.
  pose proof (Z.pow_pos_nonneg 2 (field_order r) ltac:(lia) Hfo) as Hpow.
  set (n := Z.to_nat (2 ^ field_order r)).
  exists (trajectory m n r). split; [|split; [|split]].
  - by apply state_table_trajectory.
  - unfold len. rewrite length_trajectory. lia.
  - rewrite lookup_trajectory by lia. reflexivity.
  - intros k a b Ha Hb'.
    pose proof (lookup_lt_Some _ _ _ Hb') as Hk.
    rewrite length_trajectory in Hk.
    rewrite lookup_trajectory in Ha, Hb' by lia.
    injection Ha as <-. injection Hb' as <-.
    rewrite next_ready by apply (rounds_ready m k r Hr).
    reflexivity.
Qed.

(** ** The range of the state *)

(** C5, as the code has it.  On a register whose polynomial the
    specification accepts and whose state is not negative and, for the
    external-feedback model, below [2^field_order], the state is within
    [0, 2^field_order) after every transition: after any positive number of
    [next()] calls, after [cycle] of at least one round, after
    [full_cycle()], and in every record of [state_table()] after the
    first.  For the internal-feedback model this needs no bound on the
    state the register starts from. *)
Theorem state_range_after_transitions (m : model) (r : register) :
  built m r -> valid_poly m (poly r) -> 0 <= state r ->
  (m = Fibonacci -> state r < 2 ^ field_order r) ->
  (forall n : nat, (1 <= n)%nat ->
     exists r', next_times m n r = Ok (r', state r')
                /\ 0 <= state r' < 2 ^ field_order r'
                /\ field_order r' = field_order r)
  /\ (forall k, 1 <= k ->
        exists r', cycle m r k = Ok (r', state r')
                   /\ 0 <= state r' < 2 ^ field_order r')
  /\ (exists r', full_cycle m r = Ok (r', state r')
                 /\ 0 <= state r' < 2 ^ field_order r')
  /\ (exists r' t, state_table m r = Ok (r', t)
        /\ forall (k : nat) s, (1 <= k)%nat -> State t !! k = Some s ->
             0 <= s < 2 ^ field_order r).
Proof.
  intros Hb Hp Hs Hlt. assert (Hr : ready m r) by done.
  assert (Hin : m = Fibonacci -> in_range r) by (intros E; split; auto).
  pose proof (built_field_order_nonneg m r Hb) as Hfo.
  pose proof (Z.pow_pos_nonneg 2 (field_order r) ltac:(lia) Hfo) as Hpow.
  assert (Hn : forall n : nat, (1 <= n)%nat ->
            exists r', rounds m n r = Ok r'
                       /\ 0 <= state r' < 2 ^ field_order r'
                       /\ field_order r' = field_order r).
  { intros n Hn. exists (Nat.iter n (step m) r).
    split; [apply (rounds_ready m n r Hr)|].
    split; [by apply iter_in_range|]. apply iter_step_frame. }
  split; [|split; [|split]].
  - intros n Hn1. destruct (Hn n Hn1) as (r' & E & ? & ?).
    exists r'. by rewrite next_times_rounds, E.
  - intros k Hk. destruct (Hn (Z.to_nat k) ltac:(lia)) as (r' & E & ? & ?).
    exists r'. by rewrite cycle_rounds, E.
  - destruct (Hn (Z.to_nat (2 ^ field_order r)) ltac:(lia)) as (r' & E & ? & ?).
    exists r'. by rewrite full_cycle_rounds, E.
  - eexists _, _. split; [by apply state_table_trajectory|].
    cbn [State]. intros k s Hk Hl.
    rewrite list_lookup_fmap in Hl.
    destruct (trajectory _ _ _ !! k) as [x|] eqn:Ex; [|discriminate].
    injection Hl as <-.
    pose proof (lookup_lt_Some _ _ _ Ex) as Hlen.
    rewrite length_trajectory in Hlen.
    rewrite lookup_trajectory in Ex by done. injection Ex as <-.
    pose proof (iter_in_range m k r Hr Hin Hk) as Hi. unfold in_range in Hi.
    by destruct (iter_step_frame m k r) as (_ & <- & _).
Qed.

(** ** What the methods leave unchanged *)

Ltac invert_bind H :=
  repeat match type of H with
         | bind ?c _ = Ok _ =>
             let E := fresh "E" in
             destruct c eqn:E; cbn [bind] in H; [|discriminate H]
         | (if ?b then _ else _) = Ok _ => destruct b
         end.

Lemma fround_frame m r r' : fround m r = Ok r' -> same_frame r r'.
Proof.
  destruct m; cbn [fround]; unfold LFSR.fround, Galois_LFSR.fround;
    intros H; invert_bind H; injection H as <-; done.
Qed.

Lemma same_frame_refl r : same_frame r r.
Proof. done. Qed.

Lemma same_frame_trans r1 r2 r3 :
  same_frame r1 r2 -> same_frame r2 r3 -> same_frame r1 r3.
Proof. unfold same_frame. intros (?&?&?&?) (?&?&?&?). repeat split; congruence. Qed.

Lemma same_frame_built m r r' : same_frame r r' -> built m r -> built m r'.
Proof. unfold same_frame, built. intros (-> & -> & -> & _). done. Qed.

Lemma rounds_frame m n r r' : rounds m n r = Ok r' -> same_frame r r'.
Proof.
  revert r'. induction n as [|n IH]; intros r' H.
  - injection H as <-. apply same_frame_refl.
  - unfold rounds in *. rewrite Nat.iter_succ in H.
    destruct (Nat.iter n _ _) as [r1|e]; cbn [bind] in H; [|discriminate].
    eapply same_frame_trans; [by apply IH|by eapply fround_frame].
Qed.

Lemma for_each_frame {X} m (xs : list X) (t0 : table) g r r' t' :
  for_each xs
    (fun '(self, t) x => self' <- fround m self ;; Ok (self', g self t x))
    (r, t0) = Ok (r', t') ->
  same_frame r r'.
Proof.
  revert r t0. induction xs as [|x xs IH]; intros r t0 H.
  - injection H as <- _. apply same_frame_refl.
  - cbn [for_each] in H. destruct (fround m r) as [r1|e] eqn:E;
      cbn [bind] in H; [|discriminate].
    eapply same_frame_trans; [by eapply fround_frame|by eapply IH].
Qed.

Lemma run_frame m r c r' :
  built m r -> run m r c = Ok r' ->
  built m r' /\ poly r' = poly r /\ field_order r' = field_order r
  /\ poly_str r' = poly_str r
  /\ state_init r' = last_loaded (state_init r) [c].
Proof.
  intros Hb H.
  assert (Hf : forall r1, same_frame r r1 ->
            built m r1 /\ poly r1 = poly r /\ field_order r1 = field_order r
            /\ poly_str r1 = poly_str r /\ state_init r1 = state_init r).
  { intros r1 Hs. split; [by eapply same_frame_built|].
    destruct Hs as (?&?&?&?). done. }
  destruct c as [|rounds0| | | |s0]; cbn [run last_loaded fold_left] in *.
  - unfold next in H. destruct (fround m r) as [r1|e] eqn:E;
      cbn [bind] in H; [|discriminate].
    injection H as <-. apply Hf. by apply (fround_frame m).
  - rewrite cycle_rounds in H.
    destruct (rounds m (Z.to_nat rounds0) r) as [r1|e] eqn:E;
      cbn [bind] in H; [|discriminate].
    injection H as <-. apply Hf. by eapply rounds_frame.
  - rewrite full_cycle_rounds in H by (by eapply built_field_order_nonneg).
    destruct (rounds m (Z.to_nat (2 ^ field_order r)) r) as [r1|e] eqn:E;
      cbn [bind] in H; [|discriminate].
    injection H as <-. apply Hf. by eapply rounds_frame.
  - unfold state_table in H.
    destruct (pow2 (field_order r)) as [n|e]; cbn [bind] in H; [|discriminate].
    match type of H with
    | bind (bind ?c _) _ = _ =>
        destruct c as [[r1 t1]|e] eqn:E; cbn [bind] in H; [|discriminate]
    end.
    apply (for_each_frame m _ _
             (fun self t x =>
                {| Cycle := Cycle t ++ [x];
                   State := State t ++ [state self];
                   Register_State :=
                     Register_State t
                       ++ [format_b (field_order self) (state self)] |}))
      in E.
    pose proof (Hf r1 E) as (Hb1 & Hp1 & Hfo1 & Hps1 & Hi1).
    rewrite reset_built in H by done. cbn [bind] in H. injection H as <-.
    cbn. rewrite Hp1, Hfo1, Hps1, Hi1. repeat split; done.
  - rewrite reset_built in H by done. injection H as <-. done.
  - rewrite load_built in H by done. injection H as <-. done.
Qed.

Lemma runs_frame m cs r r' :
  built m r -> for_each cs (fun r c => run m r c) r = Ok r' ->
  built m r' /\ poly r' = poly r /\ field_order r' = field_order r
  /\ poly_str r' = poly_str r
  /\ state_init r' = last_loaded (state_init r) cs.
Proof.
  revert r. induction cs as [|c cs IH]; intros r Hb H.
  - injection H as <-. done.
  - cbn [for_each] in H. destruct (run m r c) as [r1|e] eqn:E;
      cbn [bind] in H; [|discriminate].
    destruct (run_frame m r c r1 Hb E) as (Hb1 & Hp1 & Hfo1 & Hps1 & Hi1).
    destruct (IH r1 Hb1 H) as (? & ? & ? & ? & Hi).
    repeat split; try congruence.
    rewrite Hi, Hi1. reflexivity.
Qed.

(** ** Field order and construction *)

Lemma init_fibonacci p s :
  p <> 0 -> Z.abs p < 2 ^ 29 ->
  init Fibonacci p s
  = Ok {| poly := p; state := s; state_init := s;
          field_order := Z.log2_up (Z.abs p);
          poly_str := format_b (Z.log2_up (Z.abs p)) p |}.
Proof.
  intros Hp Hlt. unfold init. cbn [build_poly]. unfold LFSR.build_poly.
  rewrite ceil_log2_exact by done. reflexivity.
Qed.

Lemma init_galois p s :
  init Galois p s
  = Ok {| poly := p; state := s; state_init := s;
          field_order := len (format_b 0 p);
          poly_str := format_b 0 p |}.
Proof. reflexivity. Qed.

Lemma len_format_b_0 p : 0 <= p -> len (format_b 0 p) = Z.log2 p + 1.
Proof.
  intros Hp. pose proof (Z.log2_nonneg p).
  rewrite format_b_bits by done. unfold len. list_len. unfold width. lia.
Qed.

(** The field orders of the two models.  For a polynomial [p >= 1] the
    internal-feedback register has the bit length of [p] as field order,
    that is the [k] with [2^(k-1) <= p < 2^k].  For [p] below [2^29] the
    external-feedback register has the ceiling of the base-2 logarithm of
    [p], that is the least [k >= 0] with [p <= 2^k], and the two differ
    exactly on the powers of two, where the bit length is one more.  The
    field order is set by the constructor and no later call changes it. *)
Theorem field_order_derivation (p s : Z) :
  1 <= p ->
  (exists rg,
     init Galois p s = Ok rg
     /\ 1 <= field_order rg
     /\ 2 ^ (field_order rg - 1) <= p < 2 ^ field_order rg
     /\ (forall cs r', for_each cs (fun r c => run Galois r c) rg = Ok r' ->
           field_order r' = field_order rg))
  /\ (forall rf cs r',
        init Fibonacci p s = Ok rf ->
        for_each cs (fun r c => run Fibonacci r c) rf = Ok r' ->
        field_order r' = field_order rf)
  /\ (p < 2 ^ 29 ->
      exists rf rg,
        init Fibonacci p s = Ok rf /\ init Galois p s = Ok rg
        /\ (0 <= field_order rf /\ p <= 2 ^ field_order rf
            /\ forall k, 0 <= k -> p <= 2 ^ k -> field_order rf <= k)
        /\ ((exists k, 0 <= k /\ p = 2 ^ k) ->
            field_order rg = field_order rf + 1)
        /\ (~ (exists k, 0 <= k /\ p = 2 ^ k) ->
            field_order rg = field_order rf)).
Proof.
  intros Hp.
  pose proof (init_galois p s) as Eg.
  destruct (init_built _ _ _ _ Eg) as (Hbg & _).
  remember {| poly := p; state := s; state_init := s;
              field_order := len (format_b 0 p);
              poly_str := format_b 0 p |} as rg eqn:Erg.
  assert (Hfg : field_order rg = Z.log2 p + 1)
    by (subst rg; cbn; apply len_format_b_0; lia).
  clear Erg.
  pose proof (Z.log2_nonneg p) as Hl.
  pose proof (Z.log2_up_nonneg p) as Hu.
  pose proof (Z.log2_spec p ltac:(lia)) as Hls.
  pose proof (Z.le_log2_log2_up p) as H1.
  pose proof (Z.le_log2_up_succ_log2 p) as H2.
  split; [|split].
  - exists rg. split; [done|]. rewrite Hfg. split; [lia|]. split.
    + replace (Z.log2 p + 1 - 1) with (Z.log2 p) by lia.
      rewrite <- Z.add_1_r in Hls. exact Hls.
    + intros cs r' H. eapply runs_frame in H as (_ & _ & H & _); [|done].
      by rewrite H, Hfg.
  - intros rf cs r' Ef H. destruct (init_built _ _ _ _ Ef) as (Hbf & _).
    by eapply runs_frame in H as (_ & _ & H & _).
  - intros Hlt.
    pose proof (init_fibonacci p s ltac:(lia) ltac:(lia)) as Ef.
    remember {| poly := p; state := s; state_init := s;
                field_order := Z.log2_up (Z.abs p);
                poly_str := format_b (Z.log2_up (Z.abs p)) p |} as rf eqn:Erf.
    assert (Hff : field_order rf = Z.log2_up p)
      by (subst rf; cbn; by rewrite Z.abs_eq by lia).
    clear Erf. exists rf, rg.
    split; [done|]. split; [done|]. rewrite Hff, Hfg.
    split; [|split].
    + split; [done|]. split.
      * by apply Z.log2_up_le_pow2; [lia|].
      * intros k Hk Hle. by apply Z.log2_up_le_pow2; [lia|].
    + intros (k & Hk & ->). rewrite Z.log2_pow2, Z.log2_up_pow2 by done. lia.
    + intros Hn. destruct (Z.eq_dec (Z.log2 p) (Z.log2_up p)) as [E|E]; [|lia].
      apply Z.log2_log2_up_exact in E as [b Hb]; [|lia].
      destruct Hn. exists b. split; [|done].
      destruct (Z.le_gt_cases 0 b); [done|].
      rewrite Z.pow_neg_r in Hb by lia. lia.
Qed.

(** C3 fails on the program.  In double precision the quotient
    [log(2^29) / log(2)] is 29.000000000000004, so the external-feedback
    constructor gives the polynomial [2^29] the field order 30, where the
    ceiling of the base-2 logarithm, the least [k] with [2^29 <= 2^k], is
    29.  The internal-feedback constructor gives it its bit length, 30 as
    well: at this power of two the two derivations do not differ. *)
Theorem field_order_beyond_exact_range (s : Z) :
  float_excess (2 ^ 29) = Ok 1%nat ->
  exists rf rg,
    init Fibonacci (2 ^ 29) s = Ok rf /\ init Galois (2 ^ 29) s = Ok rg
    /\ field_order rf = 30
    /\ poly rf <= 2 ^ 29
    /\ (forall k, 0 <= k -> poly rf <= 2 ^ k -> 29 <= k)
    /\ Z.log2_up (poly rf) = 29
    /\ field_order rg = 30.
Proof.
  intros He. eexists _, _. split.
  - apply init_fibonacci_beyond; [|exact He]. vm_compute. discriminate.
  - split; [apply init_galois|]. cbn [field_order poly].
    split; [reflexivity|]. split; [lia|]. split; [|split; reflexivity].
    intros k Hk Hle. apply (Z.pow_le_mono_r_iff 2); [lia|lia|exact Hle].
Qed.

Lemma fibonacci_zero_width_next r :
  field_order r = 0 -> 0 <= state r -> LFSR.fround r = Raise TypeError.
Proof.
  intros Hfo Hs. unfold LFSR.fround. rewrite Hfo.
  rewrite format_b_stages, comprehension_bits by done. reflexivity.
Qed.

(** C4, as the code has it.  The code has no [InvalidPolynomial] error and
    checks no polynomial.  For a polynomial [p <= 1]: the external-feedback
    constructor fails at [p = 0], with the arithmetic error of the
    logarithm; at [p = 1] it returns a register of field order 0, and on
    that zero-width register [next()] raises [TypeError] for a non-negative
    state; at a negative [p] above [-2^29] it returns a register of field
    order [ceil(log2 |p|)]; and whenever it returns a register the field
    order is not negative.  The internal-feedback constructor returns a
    register at every [p], of field order 1 at [p = 0]. *)
Theorem degenerate_polynomials (p s : Z) :
  p <= 1 ->
  (p = 0 -> init Fibonacci p s = Raise OverflowError)
  /\ (p <> 0 -> - 2 ^ 29 < p ->
      exists r, init Fibonacci p s = Ok r
                /\ field_order r = Z.log2_up (Z.abs p)
                /\ 0 <= field_order r)
  /\ (forall r, init Fibonacci p s = Ok r -> 0 <= field_order r)
  /\ (p = 1 ->
      exists r, init Fibonacci p s = Ok r /\ field_order r = 0
                /\ (0 <= s -> next Fibonacci r = Raise TypeError))
  /\ (exists r, init Galois p s = Ok r
                /\ 1 <= field_order r
                /\ (p = 0 -> field_order r = 1)).
Proof.
  intros Hp. split; [|split; [|split; [|split]]].
  - intros ->. reflexivity.
  - intros Hne Hlow. eexists. split; [apply init_fibonacci; lia|].
    cbn [field_order]. split; [done|]. apply Z.log2_up_nonneg.
  - intros r Hi. destruct (init_built _ _ _ _ Hi) as (Hb & _).
    by apply (built_field_order_nonneg Fibonacci).
  - intros ->. eexists. split; [reflexivity|]. split; [reflexivity|].
    intros Hs. unfold next. cbn [fround].
    by rewrite fibonacci_zero_width_next.
  - eexists. split; [apply init_galois|]. cbn [field_order]. split.
    + unfold format_b, len. destruct (p <? 0); cbn [length]; list_len.
      * destruct p; cbn; lia.
      * destruct p; cbn [bin_digits length]; try lia;
          (destruct p; cbn [bin_pos]; rewrite bin_pos_bits || idtac;
           list_len; cbn [length]; lia).
    + intros ->. reflexivity.
Qed.

(** ** Reset and load *)

Lemma last_loaded_unloaded s cs :
  (forall c, c ∈ cs -> forall x, c <> Load x) -> last_loaded s cs = s.
Proof.
  unfold last_loaded. revert s. induction cs as [|c cs IH]; intros s H.
  - reflexivity.
  - cbn [fold_left]. destruct c as [| | | | |x].
    6: { exfalso. apply (H (Load x) ltac:(left) x). reflexivity. }
    all: apply IH; intros c' Hc'; apply H; by right.
Qed.

(** C8.  For both models, take a register constructed with polynomial [p]
    and state [s] and apply any sequence of calls that all return.  Then
    [reset()] sets the state to the initial state last loaded, which is the
    state supplied at construction when no [load] was among the calls;
    [load(x)] returns exactly what constructing a register with [(p, x)]
    returns, with state and initial state [x]; and both leave polynomial
    and field order as the constructor set them. *)
Theorem lifecycle (m : model) (p s : Z) (cs : list call) (r0 r : register) :
  init m p s = Ok r0 ->
  for_each cs (fun r c => run m r c) r0 = Ok r ->
  (exists r', reset m r = Ok r'
              /\ state r' = last_loaded s cs
              /\ state_init r' = last_loaded s cs
              /\ poly r' = p /\ field_order r' = field_order r0)
  /\ ((forall c, c ∈ cs -> forall x, c <> Load x) -> last_loaded s cs = s)
  /\ (forall x,
        load m r x = init m p x
        /\ exists r', load m r x = Ok r'
                      /\ state r' = x /\ state_init r' = x
                      /\ poly r' = p /\ field_order r' = field_order r0).
Proof.
  intros Hi Hrun.
  destruct (init_built m p s r0 Hi) as (Hb0 & Hp0 & _ & Hs0).
  destruct (runs_frame m cs r0 r Hb0 Hrun) as (Hb & Hp & Hfo & Hps & Hsi).
  rewrite Hs0 in Hsi. rewrite Hp0 in Hp.
  split; [|split].
  - eexists. split; [by apply reset_built|]. cbn. by rewrite Hsi, Hp, Hfo.
  - apply last_loaded_unloaded.
  - intros x. split.
    + unfold load. by rewrite Hp.
    + eexists. split; [by apply load_built|]. cbn. by rewrite Hp, Hfo.
Qed.

(** ** The algebraic form of the internal-feedback model *)

Lemma getitem_in {A} (l : list A) i :
  0 <= i < len l ->
  exists x, l !! Z.to_nat i = Some x /\ getitem l i = Ok x.
Proof.
  intros H. unfold getitem. rewrite resolve_in by done.
  destruct (l !! Z.to_nat i) as [x|] eqn:E; [by exists x|].
  apply lookup_ge_None in E. unfold len in H. lia.
Qed.

Lemma getitem_char_set (ps : str) i :
  0 <= i < len ps ->
  exists c, getitem ps i = Ok c /\ Ascii.eqb c "1" = char_set ps i.
Proof.
  intros H. destruct (getitem_in ps i H) as (c & E & G).
  exists c. split; [done|]. unfold char_set. by rewrite E.
Qed.

Lemma algebraic_loop (ps : str) (term : Z -> str) xs acc :
  (forall x, x ∈ xs -> 0 <= x < len ps) ->
  for_each xs
    (fun poly_math x =>
       c <- getitem ps x ;;
       if Ascii.eqb c "1"
       then Ok (poly_math ++ [term x])
       else Ok poly_math)
    acc
  = Ok (acc ++ (term <$> List.filter (char_set ps) xs)).
Proof.
  match goal with |- context [for_each _ ?b _] => set (body := b) end.
  revert acc. induction xs as [|x xs IH]; intros acc H.
  - cbn. by rewrite app_nil_r.
  - destruct (getitem_char_set ps x) as (c & G & E); [apply H; left|].
    assert (IH' := fun acc => IH acc (fun y Hy => H y (list_elem_of_further y x xs Hy))).
    cbn [for_each]. unfold body at 1. rewrite G. cbn [bind]. rewrite E.
    cbn [List.filter]. destruct (char_set ps x); cbn [bind]; rewrite IH'.
    + rewrite fmap_cons. by rewrite <- app_assoc.
    + reflexivity.
Qed.

Lemma format_b_own_width p : format_b (len (format_b 0 p)) p = format_b 0 p.
Proof.
  unfold format_b. destruct (p <? 0); unfold len; cbn [length]; list_len.
  - do 2 f_equal. f_equal. lia.
  - f_equal. f_equal. lia.
Qed.

Lemma join_snoc sep (l : list str) (s : str) :
  join sep (l ++ [s])
  = match l with [] => s | _ => join sep l ++ sep ++ s end.
Proof.
  induction l as [|a l IH]; [reflexivity|].
  destruct l as [|b l]; [reflexivity|].
  change (join sep ((a :: b :: l) ++ [s]))
    with (a ++ sep ++ join sep ((b :: l) ++ [s])).
  rewrite IH. cbn [join]. by rewrite <- !app_assoc.
Qed.

(** C10.  For the internal-feedback model, [algebraic] always ends with the
    constant term 1, whatever the polynomial, its least-significant bit
    included: the rendered string is the terms that depend on the digits of
    the polynomial ([x ^ k] for a digit 1 among the first [field_order - 1]
    positions, [x] for a digit 1 in the last position), then the term 1,
    joined by [" + "].  For a non-negative polynomial the digits are its
    bits. *)
Theorem galois_algebraic_constant_term (r : register) :
  built Galois r ->
  Galois_LFSR.algebraic r
  = Ok (join (lit " + ")
          (galois_terms (field_order r) (char_set (poly_str r)) ++ [lit "1"]))
  /\ list.last
       (galois_terms (field_order r) (char_set (poly_str r)) ++ [lit "1"])
     = Some (lit "1")
  /\ (exists pre,
        join (lit " + ")
          (galois_terms (field_order r) (char_set (poly_str r)) ++ [lit "1"])
        = pre ++ lit "1")
  /\ (0 <= poly r ->
      forall i, 0 <= i < field_order r ->
        char_set (poly_str r) i = tap (poly r) i).
Proof.
  intros Hb. unfold built in Hb. cbn [build_poly] in Hb.
  unfold Galois_LFSR.build_poly in Hb. injection Hb as Hfo Hps.
  assert (Hfo1 : 1 <= field_order r).
  { rewrite <- Hfo. unfold format_b, len.
    destruct (poly r) as [|p|p]; cbn [Z.ltb Z.compare bin_digits length];
      list_len; cbn [length]; try lia;
      (destruct p; cbn [bin_pos]; rewrite ?bin_pos_bits; list_len;
       cbn [length]; lia). }
  split; [|split; [|split]].
  - assert (Hf : format_b (field_order r) (poly r) = poly_str r)
      by (by rewrite <- Hfo, format_b_own_width).
    unfold Galois_LFSR.algebraic. cbv zeta. rewrite Hf.
    rewrite algebraic_loop.
    2:{ intros x Hx%elem_of_range. rewrite <- Hps, Hfo. lia. }
    cbn [bind app].
    destruct (getitem_char_set (poly_str r) (field_order r - 1)) as (c & G & E).
    { rewrite <- Hps, Hfo. lia. }
    rewrite G. cbn [bind]. rewrite E. unfold galois_terms.
    destruct (char_set (poly_str r) (field_order r - 1));
      by rewrite ?app_nil_r.
  - by rewrite last_snoc.
  - rewrite join_snoc. destruct (galois_terms _ _).
    + by exists [].
    + eexists. by rewrite app_assoc.
  - intros Hp i Hi.
    assert (Hbr : built Galois r)
      by (unfold built, build_poly, Galois_LFSR.build_poly; by rewrite Hfo, Hps).
    destruct (built_galois r Hbr Hp) as (Ef & Es).
    unfold char_set. rewrite Es, <- list_fmap_compose, lookup_fmap_range.
    case_decide; [|lia]. cbn. rewrite Z2Nat.id by lia. apply eqb_bit_char.
Qed.

(** ** Composite registers *)

Lemma fold_stage_bits (n : nat) v a :
  0 <= v < 2 ^ Z.of_nat n ->
  fold_left (fun acc b => 2 * acc + Z.b2z b)
    (stage (Z.of_nat n) v <$> range 0 (Z.of_nat n)) a
  = a * 2 ^ Z.of_nat n + v.
Proof.
  revert v. induction n as [|n IH]; intros v Hv.
  - cbn [Z.of_nat] in *. change (2 ^ 0) with 1 in *.
    rewrite range_nil by lia. cbn [fmap list_fmap fold_left]. lia.
  - rewrite Nat2Z.inj_succ, <- Z.add_1_r in *.
    rewrite Z.pow_add_r, Z.pow_1_r in * by lia.
    pose proof (Z.div2_odd v) as Hd.
    assert (Hb : 0 <= Z.b2z (Z.odd v) <= 1) by (destruct (Z.odd v); cbn; lia).
    rewrite range_snoc, fmap_app, fold_left_app by lia.
    rewrite (fmap_range_ext _ (stage (Z.of_nat n) (Z.div2 v))).
    + rewrite IH by lia. cbn [fmap list_fmap fold_left].
      unfold stage.
      replace (Z.of_nat n + 1 - 1 - Z.of_nat n) with 0 by lia.
      rewrite Z.bit0_odd. lia.
    + intros x Hx. unfold stage. rewrite Z.div2_div, Z.div2_bits by lia.
      f_equal. lia.
Qed.

Lemma fold_concat_bits (l : list (Z * Z)) acc :
  Forall (fun wv => 0 <= fst wv /\ 0 <= snd wv < 2 ^ fst wv) l ->
  fold_left (fun acc b => 2 * acc + Z.b2z b)
    (concat ((fun wv => stage (fst wv) (snd wv) <$> range 0 (fst wv)) <$> l))
    acc
  = fold_left (fun acc wv => acc * 2 ^ fst wv + snd wv) l acc.
Proof.
  intros H. revert acc. induction H as [|[w v] l [Hw Hv] _ IH]; intros acc.
  - reflexivity.
  - rewrite fmap_cons. cbn [concat fold_left fst snd] in *.
    rewrite fold_left_app, IH. f_equal.
    rewrite <- (Z2Nat.id w) at 1 2 3 by lia.
    rewrite fold_stage_bits by (rewrite Z2Nat.id by lia; lia).
    by rewrite Z2Nat.id by lia.
Qed.

Lemma fold_concat_range (l : list (Z * Z)) acc :
  Forall (fun wv => 0 <= fst wv /\ 0 <= snd wv < 2 ^ fst wv) l ->
  0 <= acc ->
  acc * 2 ^ sum_list (fst <$> l)
  <= fold_left (fun acc wv => acc * 2 ^ fst wv + snd wv) l acc
  < (acc + 1) * 2 ^ sum_list (fst <$> l)
  /\ 0 <= sum_list (fst <$> l).
Proof.
  intros H. revert acc. induction H as [|[w v] l [Hw Hv] _ IH]; intros acc Ha.
  - cbn. lia.
  - rewrite fmap_cons. cbn [fold_left sum_list fold_right fst snd] in *.
    fold (sum_list (fst <$> l)).
    destruct (IH (acc * 2 ^ w + v)) as [IH1 IH2]; [nia|].
    split; [|lia].
    rewrite Z.pow_add_r by lia.
    pose proof (Z.pow_pos_nonneg 2 w ltac:(lia) Hw).
    pose proof (Z.pow_pos_nonneg 2 (sum_list (fst <$> l)) ltac:(lia) IH2).
    nia.
Qed.

Lemma width_bound w v : 0 <= v -> 1 <= width w v /\ 0 <= v < 2 ^ width w v.
Proof.
  intros Hv. pose proof (width_ge w v) as [_ H1]. split; [done|].
  split; [done|].
  destruct (Z.eq_dec v 0) as [->|Hne]; [apply Z.pow_pos_nonneg; lia|].
  apply Z.log2_lt_pow2; [lia|]. unfold width. lia.
Qed.

Lemma from_lfsrs_loop m args seen (P S : list bool) :
  Forall (readable m) args ->
  for_each args
    (fun '(seen, elong_poly, elong_state) x =>
       x <- reset m x ;;
       Ok (seen ++ [x],
           elong_poly ++ format_b (field_order x) (poly x),
           elong_state ++ format_b (field_order x) (state x)))
    (seen, bit_char <$> P, bit_char <$> S)
  = Ok (seen ++ (restored <$> args),
        bit_char <$>
          (P ++ concat
                  ((fun a => stage (width (field_order a) (poly a)) (poly a)
                               <$> range 0 (width (field_order a) (poly a)))
                     <$> args)),
        bit_char <$>
          (S ++ concat
                  ((fun a => stage (width (field_order a) (state_init a))
                               (state_init a)
                               <$> range 0 (width (field_order a)
                                              (state_init a)))
                     <$> args))).
Proof.
  match goal with |- context [for_each _ ?b _] => set (body := b) end.
  intros H. revert seen P S.
  induction H as [|a args (Hb & Hp & Hs) _ IH]; intros seen P S.
  - cbn. by rewrite !app_nil_r.
  - cbn [for_each]. unfold body at 1. rewrite reset_built by done.
    cbn [bind poly state field_order].
    rewrite !format_b_stages by done. rewrite <- !fmap_app.
    fold (restored a). rewrite IH, !fmap_cons. cbn [concat].
    by rewrite <- !app_assoc.
Qed.

(** The concatenated strings read back as the concatenation of the
    values. *)
Lemma int2_elongated (f : register -> Z) args :
  args <> [] -> Forall (fun a => 0 <= f a) args ->
  int2 (bit_char <$>
          concat ((fun a => stage (width (field_order a) (f a)) (f a)
                              <$> range 0 (width (field_order a) (f a)))
                    <$> args))
  = Ok (elongated f args).
Proof.
  intros Hne Hf. rewrite int2_bits.
  - f_equal. unfold of_bits, elongated, bit_concat.
    rewrite <- fold_concat_bits.
    + by rewrite <- list_fmap_compose.
    + apply Forall_fmap. eapply List.Forall_impl; [|exact Hf].
      intros a Ha. cbn. destruct (width_bound (field_order a) (f a) Ha).
      lia.
  - destruct args as [|a args]; [done|].
    pose proof (width_ge (field_order a) (f a)) as [_ Hw].
    rewrite fmap_cons. cbn [concat]. rewrite (range_cons 0) by lia. done.
Qed.

Lemma from_lfsrs_readable m args :
  args <> [] -> Forall (readable m) args ->
  from_lfsrs m args
  = (r <- init m (elongated poly args) (elongated state_init args) ;;
     Ok (restored <$> args, r)).
Proof.
  intros Hne Hr.
  pose proof (from_lfsrs_loop m args [] [] [] Hr) as Eloop.
  change (bit_char <$> []) with (@nil ascii) in Eloop. cbn [app] in Eloop.
  unfold from_lfsrs. rewrite Eloop. cbn [bind].
  rewrite (int2_elongated poly), (int2_elongated state_init); try done.
  - eapply List.Forall_impl; [|exact Hr]. by intros a (_ & _ & ?).
  - eapply List.Forall_impl; [|exact Hr]. by intros a (_ & ? & _).
Qed.

Lemma fold_concat_ge (l : list (Z * Z)) acc :
  Forall (fun wv => 0 <= fst wv /\ 0 <= snd wv) l -> 0 <= acc ->
  acc <= fold_left (fun acc wv => acc * 2 ^ fst wv + snd wv) l acc
  /\ Forall (fun wv =>
              snd wv
              <= fold_left (fun acc wv => acc * 2 ^ fst wv + snd wv) l acc) l.
Proof.
  intros H. revert acc. induction H as [|[w v] l [Hw Hv] _ IH]; intros acc Ha.
  - cbn. split; [lia|constructor].
  - cbn [fold_left fst snd] in *.
    pose proof (Z.pow_pos_nonneg 2 w ltac:(lia) Hw) as Hpow.
    destruct (IH (acc * 2 ^ w + v) ltac:(nia)) as [IH1 IH2].
    split; [nia|]. constructor; [cbn; nia|exact IH2].
Qed.

(** Every value is at most the concatenation it is part of. *)
Lemma elongated_ge (f : register -> Z) args a :
  Forall (fun a => 0 <= f a) args -> In a args -> f a <= elongated f args.
Proof.
  intros Hf Ha. unfold elongated, bit_concat.
  destruct (fold_concat_ge
              ((fun a => (width (field_order a) (f a), f a)) <$> args) 0)
    as [_ H]; [|lia|].
  - apply Forall_fmap. eapply List.Forall_impl; [|exact Hf].
    intros x Hx. cbn in *. pose proof (width_ge (field_order x) (f x)). lia.
  - rewrite List.Forall_forall in H.
    apply (H (width (field_order a) (f a), f a)).
    apply List.in_map_iff. by exists a.
Qed.

(** A polynomial that fills its field order: the first digit of its padded
    representation is 1. *)
Lemma composable_full m a :
  built m a -> composable m (poly a) -> (m = Fibonacci -> poly a < 2 ^ 29) ->
  1 <= field_order a
  /\ width (field_order a) (poly a) = field_order a
  /\ match m with
     | Fibonacci => 2 ^ (field_order a - 1) < poly a
     | Galois => 2 ^ (field_order a - 1) <= poly a
     end.
Proof.
  intros Hb Hc Hlt. destruct m; cbn [composable] in Hc.
  - destruct Hc as [Hp Hn]. specialize (Hlt eq_refl).
    destruct (built_fibonacci_exact a Hb ltac:(lia)) as [Hfo Hle].
    pose proof (Z.log2_up_spec (poly a) ltac:(lia)) as Hsp.
    rewrite <- Hfo, <- Z.sub_1_r in Hsp.
    specialize (Hn (field_order a)).
    assert (Z.log2 (poly a) < field_order a)
      by (apply Z.log2_lt_pow2; lia).
    pose proof (Z.log2_nonneg (poly a)) as Hl.
    split; [lia|]. split; [unfold width; lia|lia].
  - destruct (built_galois a Hb ltac:(lia)) as (Hfo & _).
    pose proof (Z.log2_spec (poly a) ltac:(lia)) as Hsp.
    pose proof (Z.log2_nonneg (poly a)) as Hl.
    split; [lia|]. split; [unfold width; lia|].
    replace (field_order a - 1) with (Z.log2 (poly a)) by lia. lia.
Qed.

Lemma from_lfsrs_nil m : from_lfsrs m [] = Raise ValueError.
Proof. reflexivity. Qed.

(** C9, as the code has it.  For both models and every non-empty list of
    registers of the same model with polynomials and initial states that are
    not negative, [from_lfsrs] leaves the inputs reset and returns what the
    constructor returns on the polynomial and the state that are the
    bit-concatenation, first input most significant, of the polynomials and
    of the initial states of the inputs, each zero-padded to the field order
    of its input and never cut; where every value is below [2^field_order]
    of its input, that is the concatenation over exactly the field orders.
    The field order of the result is the sum of the field orders of the
    inputs in the internal-feedback model when every polynomial is at least
    1, and in the external-feedback model when every polynomial is at least
    2 and not a power of two and the composite polynomial is below
    [2^29]. *)
Theorem from_lfsrs_concatenates (m : model) (args : list register) :
  args <> [] -> Forall (readable m) args ->
  from_lfsrs m args
  = (r <- init m (elongated poly args) (elongated state_init args) ;;
     Ok (restored <$> args, r))
  /\ (forall r,
        init m (elongated poly args) (elongated state_init args) = Ok r ->
        poly r = elongated poly args
        /\ state r = elongated state_init args
        /\ state_init r = state r)
  /\ (forall f : register -> Z,
        Forall (fun a => 1 <= field_order a /\ 0 <= f a < 2 ^ field_order a)
          args ->
        elongated f args
        = bit_concat ((fun a => (field_order a, f a)) <$> args))
  /\ (Forall (fun a => composable m (poly a)) args ->
      (m = Fibonacci -> elongated poly args < 2 ^ 29) ->
      exists r,
        init m (elongated poly args) (elongated state_init args) = Ok r
        /\ field_order r = sum_list (field_order <$> args)).
Proof.
  intros Hne Hr. split; [by apply from_lfsrs_readable|].
  split; [|split].
  - intros r Hi. destruct (init_built _ _ _ _ Hi) as (_ & -> & -> & ->).
    done.
  - intros f Hf. unfold elongated. f_equal.
    apply Forall_fmap_ext_1. eapply List.Forall_impl; [|exact Hf].
    intros a [Hfo Hv]. cbn. by rewrite width_in_range.
  - intros Hc Hlt.
    assert (Hpoly : Forall (fun a => 0 <= poly a) args).
    { eapply List.Forall_impl; [|exact Hr]. by intros a (_ & ? & _). }
    (* every polynomial fills its field order *)
    assert (Hfull : Forall (fun a =>
              1 <= field_order a
              /\ width (field_order a) (poly a) = field_order a
              /\ match m with
                 | Fibonacci => 2 ^ (field_order a - 1) < poly a
                 | Galois => 2 ^ (field_order a - 1) <= poly a
                 end) args).
    { rewrite List.Forall_forall in Hr, Hc. apply List.Forall_forall.
      intros a Ha. destruct (Hr a Ha) as (Hb & _).
      apply composable_full; [done|by apply Hc|].
      intros E. specialize (Hlt E).
      pose proof (elongated_ge poly args a Hpoly Ha). lia. }
    set (P := elongated poly args) in *.
    set (W := sum_list (field_order <$> args)).
    (* the composite polynomial fills the sum of the field orders *)
    assert (HP : 1 <= W /\ P < 2 ^ W
                 /\ match m with
                    | Fibonacci => 2 ^ (W - 1) < P
                    | Galois => 2 ^ (W - 1) <= P
                    end).
    { destruct args as [|a args]; [done|].
      pose proof (List.Forall_inv Hfull) as (Hfo & Hw & Hlow).
      pose proof (List.Forall_inv Hpoly) as Hpa.
      pose proof (List.Forall_inv_tail Hfull) as Hrest.
      pose proof (List.Forall_inv_tail Hpoly) as Hprest.
      assert (Hok : Forall (fun wv => 0 <= fst wv /\ 0 <= snd wv < 2 ^ fst wv)
                      ((fun x => (width (field_order x) (poly x), poly x))
                         <$> args)).
      { apply Forall_fmap. eapply List.Forall_impl; [|exact Hprest].
        intros x Hx. cbn. destruct (width_bound (field_order x) (poly x) Hx).
        lia. }
      pose proof (fold_concat_range _ (poly a) Hok Hpa) as [Hrg Hs0].
      rewrite <- list_fmap_compose in Hrg, Hs0.
      assert (Ew : (fst ∘ (fun x : register =>
                              (width (field_order x) (poly x), poly x)))
                     <$> args
                   = field_order <$> args).
      { apply Forall_fmap_ext_1. eapply List.Forall_impl; [|exact Hrest].
        by intros x (_ & ? & _). }
      rewrite Ew in Hrg, Hs0.
      assert (EP : P = fold_left (fun acc wv => acc * 2 ^ fst wv + snd wv)
                         ((fun x => (width (field_order x) (poly x), poly x))
                            <$> args) (poly a)).
      { unfold P, elongated, bit_concat. rewrite fmap_cons.
        cbn [fold_left fst snd]. by rewrite Z.mul_0_l, Z.add_0_l. }
      rewrite <- EP in Hrg.
      assert (Hpa' : poly a < 2 ^ field_order a).
      { destruct (width_bound (field_order a) (poly a) Hpa) as [_ Hb'].
        rewrite Hw in Hb'. lia. }
      cbv beta in Hpa.
      unfold W. rewrite fmap_cons. cbn [sum_list fold_right].
      fold (sum_list (field_order <$> args)).
      set (W' := sum_list (field_order <$> args)) in *.
      replace (field_order a + W' - 1) with ((field_order a - 1) + W') by lia.
      rewrite !Z.pow_add_r by lia.
      pose proof (Z.pow_pos_nonneg 2 W' ltac:(lia) Hs0).
      pose proof (Z.pow_pos_nonneg 2 (field_order a - 1) ltac:(lia) ltac:(lia)).
      split; [lia|]. split; [nia|destruct m; nia]. }
    destruct HP as (HW & Hhigh & Hlow).
    destruct m.
    + assert (0 < P).
      { eapply Z.lt_trans; [|exact Hlow]. apply Z.pow_pos_nonneg; lia. }
      specialize (Hlt eq_refl).
      eexists. split; [apply init_fibonacci; lia|]. cbn [field_order].
      rewrite Z.abs_eq by lia.
      apply Z.log2_up_unique; [lia|]. rewrite <- Z.sub_1_r. lia.
    + assert (0 < P).
      { eapply Z.lt_le_trans; [|exact Hlow]. apply Z.pow_pos_nonneg; lia. }
      eexists. split; [apply init_galois|]. cbn [field_order].
      rewrite len_format_b_0 by lia.
      rewrite (Z.log2_unique _ (W - 1)); [lia|lia|].
      rewrite <- Z.add_1_r. replace (W - 1 + 1) with W by lia. lia.
Qed.

(** ** The built-ins on the inputs where they are least obvious *)

Example format_b_pads : format_b 4 1 = lit "0001".
Proof. reflexivity. Qed.

Example format_b_never_truncates : format_b 3 8 = lit "1000".
Proof. reflexivity. Qed.

Example format_b_width_0 : format_b 0 5 = lit "101" /\ format_b 0 0 = lit "0".
Proof. split; reflexivity. Qed.

Example format_b_sign_first : format_b 6 (-5) = lit "-00101".
Proof. reflexivity. Qed.

Example int2_signed : int2 (lit "-101") = Ok (-5).
Proof. reflexivity. Qed.

Example int2_empty : int2 [] = Raise ValueError /\ int2 (lit "-") = Raise ValueError.
Proof. split; reflexivity. Qed.

Example slice_assign_shift :
  slice_assign [1; 2; 3; 4; 5; 6] 0 3 (slice [1; 2; 3; 4; 5; 6] 1 4)
  = [2; 3; 4; 4; 5; 6].
Proof. reflexivity. Qed.

Example slice_assign_negative_bound :
  slice_assign [1; 2; 3] 0 (-1) (slice [1; 2; 3] 1 0) = [3].
Proof. reflexivity. Qed.

Example str_int_decimal : str_int 12 = lit "12" /\ str_int (-3) = lit "-3".
Proof. split; reflexivity. Qed.

(** The period-7 sequence of the external-feedback register with
    polynomial 0b1011 from state 1. *)
Example fibonacci_1011_states :
  (let* r := init Fibonacci 11 1 in
   let* (_, t) := state_table Fibonacci r in
   Ok (take 8 (State t)))
  = Ok [1; 3; 6; 13; 10; 4; 8; 1].
Proof. reflexivity. Qed.

(** ** The algebraic form of the external-feedback model *)

Lemma char_set_fibonacci r i :
  built Fibonacci r -> 1 <= poly r -> 0 <= i < field_order r ->
  char_set (poly_str r) i = padded_tap (field_order r) (poly r) i.
Proof.
  intros Hb Hp Hi. destruct (built_fibonacci r Hb Hp) as (_ & _ & _ & Hps).
  pose proof (width_ge (field_order r) (poly r)) as [Hw _].
  unfold char_set. rewrite Hps, <- list_fmap_compose, lookup_fmap_range.
  case_decide; [|lia]. cbn. rewrite Z2Nat.id by lia. apply eqb_bit_char.
Qed.

Lemma len_poly_str_fibonacci r :
  built Fibonacci r -> 1 <= poly r -> field_order r <= len (poly_str r).
Proof.
  intros Hb Hp. destruct (built_fibonacci r Hb Hp) as (_ & _ & _ & Hps).
  pose proof (width_ge (field_order r) (poly r)) as [Hw Hw1].
  rewrite Hps. unfold len. list_len. lia.
Qed.

Lemma format_b_poly_str_fibonacci r :
  built Fibonacci r -> format_b (field_order r) (poly r) = poly_str r.
Proof. intros Hb. by destruct (built_fibonacci_inv r Hb) as [_ ->]. Qed.

Lemma fibonacci_field_order_2 r :
  built Fibonacci r -> 3 <= poly r -> 2 <= field_order r.
Proof.
  intros Hb Hp. destruct (built_fibonacci_inv r Hb) as [Hc _].
  destruct (ceil_log2_ok _ _ Hc) as (_ & _ & Hlt & Hge).
  rewrite Z.abs_eq in Hlt, Hge by lia.
  destruct (Z.lt_ge_cases (poly r) (2 ^ 29)) as [Hs|Hs].
  - rewrite Hlt by done.
    assert (1 < Z.log2_up (poly r))
      by (apply Z.log2_up_lt_pow2; [lia|]; change (2 ^ 1) with 2; lia).
    lia.
  - specialize (Hge Hs). lia.
Qed.

Lemma fibonacci_terms_nonempty fo (bit : Z -> bool) i :
  0 <= i < fo -> bit i = true -> fibonacci_terms fo bit <> [].
Proof.
  intros Hi Hb. unfold fibonacci_terms.
  destruct (Z.eq_dec i (fo - 1)) as [E1|E1].
  { rewrite <- E1, Hb. intros E. apply app_eq_nil in E as [_ E].
    apply app_eq_nil in E as [_ E]. discriminate. }
  destruct (Z.eq_dec i (fo - 2)) as [E2|E2].
  { rewrite <- E2, Hb. intros E. apply app_eq_nil in E as [_ E].
    discriminate. }
  intros E. apply app_eq_nil in E as [E _]. apply fmap_nil_inv in E.
  by apply (filter_range_nonempty bit 0 (fo - 2) i) in E; [|lia|].
Qed.

(** The algebraic form of the external-feedback register.  With polynomial
    1 (field order 0) it raises [IndexError]; with polynomial 2 it is ["1"];
    with a polynomial of at least 3 the field order [fo] is at least 2 and
    the form is the terms [x ^ (fo - i - 1)] for the digits 1 of [poly_str]
    among the first [fo - 2], then [x] for digit [fo - 2], then [1] for digit
    [fo - 1], joined by [" + "], and it is never empty.  The digits are
    those of the polynomial padded to [fo] digits; they are the bits of its
    minimal binary representation when [fo] does not exceed their number,
    as for every polynomial below [2^29]. *)
Theorem fibonacci_algebraic (r : register) :
  built Fibonacci r -> 1 <= poly r ->
  (poly r = 1 -> LFSR.algebraic r = Raise IndexError)
  /\ (poly r = 2 -> LFSR.algebraic r = Ok (lit "1"))
  /\ (3 <= poly r ->
      2 <= field_order r
      /\ LFSR.algebraic r
         = Ok (join (lit " + ")
                 (fibonacci_terms (field_order r)
                    (padded_tap (field_order r) (poly r))))
      /\ fibonacci_terms (field_order r)
           (padded_tap (field_order r) (poly r)) <> [])
  /\ (field_order r <= Z.log2 (poly r) + 1 ->
      forall i, padded_tap (field_order r) (poly r) i = tap (poly r) i)
  /\ (poly r < 2 ^ 29 -> field_order r <= Z.log2 (poly r) + 1).
Proof.
  intros Hb Hp1.
  pose proof (format_b_poly_str_fibonacci r Hb) as Hf.
  split; [|split; [|split; [|split]]].
  - intros E.
    destruct (built_fibonacci_exact r Hb) as [Hfo _]; [rewrite E; lia|].
    unfold LFSR.algebraic. rewrite Hfo, E. reflexivity.
  - intros E.
    destruct (built_fibonacci_exact r Hb) as [Hfo _]; [rewrite E; lia|].
    unfold LFSR.algebraic. rewrite Hfo, E. reflexivity.
  - intros Hp.
    pose proof (len_poly_str_fibonacci r Hb ltac:(lia)) as Hlen.
    pose proof (fibonacci_field_order_2 r Hb Hp) as Hfo2.
    assert (Hc : forall i, 0 <= i < field_order r ->
              exists c, getitem (poly_str r) i = Ok c
                        /\ Ascii.eqb c "1"
                           = padded_tap (field_order r) (poly r) i).
    { intros i Hi. destruct (getitem_char_set (poly_str r) i) as (c & G & E);
        [lia|]. exists c. split; [done|].
      by rewrite E, char_set_fibonacci by (done || lia). }
    split; [done|]. split.
    + unfold LFSR.algebraic. cbv zeta. rewrite Hf, algebraic_loop.
      2:{ intros x Hx%elem_of_range. lia. }
      cbn [bind app].
      destruct (Hc (field_order r - 2)) as (c2 & G2 & E2); [lia|].
      destruct (Hc (field_order r - 1)) as (c1 & G1 & E1); [lia|].
      rewrite G2. cbn [bind]. rewrite E2, G1. cbn [bind]. rewrite E1.
      unfold fibonacci_terms.
      rewrite (filter_range_ext (char_set (poly_str r))
                 (padded_tap (field_order r) (poly r))).
      2:{ intros x Hx. apply char_set_fibonacci; (done || lia). }
      destruct (padded_tap (field_order r) (poly r) (field_order r - 2)),
        (padded_tap (field_order r) (poly r) (field_order r - 1));
        by rewrite <- ?app_assoc, ?app_nil_r.
    + destruct (padded_tap_some (field_order r) (poly r)) as (i & Hi & Ht);
        [lia|lia|].
      by apply (fibonacci_terms_nonempty _ _ i).
  - intros Hle i. by apply padded_tap_tap.
  - intros Hlt. by apply built_fibonacci_exact; [|lia].
Qed.

(** ** States and round counts outside the expected range *)

Lemma fround_negative m r : state r < 0 -> fround m r = Raise ValueError.
Proof.
  intros Hs.
  assert (Hf : exists rest, format_b (field_order r) (state r) = "-"%char :: rest).
  { unfold format_b. destruct (Z.ltb_spec (state r) 0); [|lia]. by eexists. }
  destruct Hf as [rest Hf].
  destruct m; cbn [fround]; unfold LFSR.fround, Galois_LFSR.fround;
    cbv zeta; rewrite Hf; reflexivity.
Qed.

(** Both constructors accept a negative state, and every method that runs
    a round then raises [ValueError]: [next()], [cycle] of at least one
    round, [full_cycle()] and [state_table]. *)
Theorem negative_state_raises (m : model) (r : register) :
  built m r -> state r < 0 ->
  next m r = Raise ValueError
  /\ (forall n, 1 <= n -> cycle m r n = Raise ValueError)
  /\ full_cycle m r = Raise ValueError
  /\ state_table m r = Raise ValueError.
Proof.
  intros Hb Hs.
  pose proof (built_field_order_nonneg m r Hb) as Hfo.
  pose proof (Z.pow_pos_nonneg 2 (field_order r) ltac:(lia) Hfo) as Hpow.
  pose proof (fround_negative m r Hs) as Hf.
  assert (Hr : forall n : nat, (1 <= n)%nat -> rounds m n r = Raise ValueError).
  { intros [|n] Hn; [lia|]. by rewrite rounds_S_front, Hf. }
  split; [|split; [|split]].
  - unfold next. by rewrite Hf.
  - intros n Hn. by rewrite cycle_rounds, Hr by lia.
  - by rewrite full_cycle_rounds, Hr by lia.
  - unfold state_table, pow2.
    destruct (Z.ltb_spec (field_order r) 0); [lia|]. cbn [bind].
    rewrite range_cons by lia. cbn [for_each]. by rewrite Hf.
Qed.

Lemma rounds_add m (a b : nat) r :
  rounds m (a + b) r = (r' <- rounds m a r ;; rounds m b r').
Proof.
  unfold rounds. rewrite Nat.add_comm, Nat.iter_add.
  destruct (Nat.iter a _ _) as [r'|e]; cbn [bind]; [reflexivity|].
  apply iter_raise.
Qed.

(** Cycling composes: [cycle(a + b)] is [cycle(a)] followed by [cycle(b)]
    on the register the first leaves, errors included; and [cycle] of a
    round count of zero or less does nothing and returns the current
    state. *)
Theorem cycle_composes (m : model) (r : register) (a b : Z) :
  0 <= a -> 0 <= b ->
  cycle m r (a + b) = (let* (r', _) := cycle m r a in cycle m r' b)
  /\ (forall n, n <= 0 -> cycle m r n = Ok (r, state r)).
Proof.
  intros Ha Hb. split.
  - rewrite !cycle_rounds, Z2Nat.inj_add, rounds_add by done.
    destruct (rounds m (Z.to_nat a) r) as [r'|e]; cbn [bind]; [|reflexivity].
    by rewrite cycle_rounds.
  - intros n Hn. unfold cycle. by rewrite range_nil by lia.
Qed.

(** ** Composite registers and the current state of their inputs *)

Lemma from_lfsrs_loop_origin m (xs ys : list register) acc :
  Forall2 same_origin xs ys ->
  for_each xs
    (fun '(seen, elong_poly, elong_state) x =>
       x <- reset m x ;;
       Ok (seen ++ [x],
           elong_poly ++ format_b (field_order x) (poly x),
           elong_state ++ format_b (field_order x) (state x)))
    acc
  = for_each ys
      (fun '(seen, elong_poly, elong_state) x =>
         x <- reset m x ;;
         Ok (seen ++ [x],
             elong_poly ++ format_b (field_order x) (poly x),
             elong_state ++ format_b (field_order x) (state x)))
      acc.
Proof.
  intros H. revert acc. induction H as [|x y xs ys [Hp Hs] _ IH]; intros acc.
  - reflexivity.
  - cbn [for_each]. destruct acc as [[seen ep] es].
    unfold reset. rewrite Hp, Hs.
    destruct (init m (poly y) (state_init y)); cbn [bind]; [apply IH|reflexivity].
Qed.

(** [from_lfsrs] reads its inputs only through their polynomials and
    initial states: whatever states the inputs are in when it is called,
    the result, errors included, is the same.  In particular it is the
    result on the inputs as their own [reset()] leaves them. *)
Theorem from_lfsrs_ignores_current_state (m : model) (xs ys : list register) :
  Forall2 same_origin xs ys ->
  from_lfsrs m xs = from_lfsrs m ys.
Proof.
  intros H. unfold from_lfsrs. by rewrite (from_lfsrs_loop_origin m xs ys).
Qed.

(** ** The bits of the state after a round *)

Lemma of_bits_snoc bs b : of_bits (bs ++ [b]) = 2 * of_bits bs + Z.b2z b.
Proof. unfold of_bits. by rewrite fold_left_app. Qed.

Lemma testbit_of_bits (g : Z -> bool) (n : nat) k :
  0 <= k ->
  Z.testbit (of_bits (g <$> range 0 (Z.of_nat n))) k
  = if k <? Z.of_nat n then g (Z.of_nat n - 1 - k) else false.
Proof.
  revert k g. induction n as [|n IH]; intros k g Hk.
  - change (Z.of_nat 0) with 0. rewrite range_nil by lia.
    destruct (Z.ltb_spec k 0); [lia|]. apply Z.testbit_0_l.
  - rewrite Nat2Z.inj_succ, <- Z.add_1_r, range_snoc, fmap_app by lia.
    cbn [fmap list_fmap]. rewrite of_bits_snoc.
    destruct (Z.eq_dec k 0) as [->|Hne].
    + rewrite Z.testbit_0_r. destruct (Z.ltb_spec 0 (Z.of_nat n + 1)); [|lia].
      f_equal. lia.
    + replace k with (Z.succ (k - 1)) at 1 by lia.
      rewrite Z.testbit_succ_r, IH by lia.
      destruct (Z.ltb_spec (k - 1) (Z.of_nat n)),
        (Z.ltb_spec k (Z.of_nat n + 1)); try lia; try reflexivity.
      f_equal. lia.
Qed.

Lemma testbit_of_bits_Z (g : Z -> bool) fo k :
  0 <= fo -> 0 <= k ->
  Z.testbit (of_bits (g <$> range 0 fo)) k
  = if k <? fo then g (fo - 1 - k) else false.
Proof.
  intros Hfo Hk. rewrite <- (Z2Nat.id fo) by done. apply testbit_of_bits, Hk.
Qed.

Lemma testbit_in_range fo s k : 0 <= s < 2 ^ fo -> fo <= k -> Z.testbit s k = false.
Proof.
  intros Hs Hk. destruct (Z.eq_dec s 0) as [->|Hne]; [apply Z.testbit_0_l|].
  apply Z.bits_above_log2; [lia|].
  assert (Z.log2 s < fo); [|lia].
  apply Z.log2_lt_pow2; lia.
Qed.

(** An in-range state is determined by its stages. *)
Lemma stages_inj fo a b :
  0 <= fo -> 0 <= a < 2 ^ fo -> 0 <= b < 2 ^ fo ->
  (forall i, 0 <= i < fo -> stage fo a i = stage fo b i) -> a = b.
Proof.
  intros Hfo Ha Hb H. apply Z.bits_inj'. intros k Hk.
  destruct (Z.lt_ge_cases k fo).
  - specialize (H (fo - 1 - k) ltac:(lia)). unfold stage in H.
    by replace (fo - 1 - (fo - 1 - k)) with k in H by lia.
  - by rewrite !(testbit_in_range fo) by done.
Qed.

Lemma stage_lxor fo a b i :
  stage fo (Z.lxor a b) i = xorb (stage fo a i) (stage fo b i).
Proof. unfold stage. apply Z.lxor_spec. Qed.

Lemma xor_all_lxor fo a b (xs : list Z) :
  xor_all (stage fo (Z.lxor a b) <$> xs)
  = xorb (xor_all (stage fo a <$> xs)) (xor_all (stage fo b <$> xs)).
Proof.
  induction xs as [|x xs IH]; [reflexivity|].
  rewrite !fmap_cons. cbn [xor_all fold_right]. fold (xor_all (stage fo (Z.lxor a b) <$> xs)).
  fold (xor_all (stage fo a <$> xs)). fold (xor_all (stage fo b <$> xs)).
  rewrite IH, stage_lxor.
  destruct (stage fo a x), (stage fo b x), (xor_all (stage fo a <$> xs)),
    (xor_all (stage fo b <$> xs)); reflexivity.
Qed.

Lemma lxor_in_range fo a b :
  0 <= fo -> 0 <= a < 2 ^ fo -> 0 <= b < 2 ^ fo -> 0 <= Z.lxor a b < 2 ^ fo.
Proof.
  intros Hfo Ha Hb.
  assert (Hn : 0 <= Z.lxor a b) by (apply Z.lxor_nonneg; lia).
  split; [done|].
  destruct (Z.eq_dec (Z.lxor a b) 0) as [->|Hne]; [by apply Z.pow_pos_nonneg|].
  apply Z.log2_lt_pow2; [lia|].
  pose proof (Z.log2_lxor a b ltac:(lia) ltac:(lia)) as Hl.
  destruct (Z.eq_dec a 0) as [->|Ha0]; destruct (Z.eq_dec b 0) as [->|Hb0].
  - by rewrite Z.lxor_0_l in Hne.
  - rewrite Z.lxor_0_l. apply Z.log2_lt_pow2; lia.
  - rewrite Z.lxor_0_r. apply Z.log2_lt_pow2; lia.
  - assert (Z.log2 a < fo) by (apply Z.log2_lt_pow2; lia).
    assert (Z.log2 b < fo) by (apply Z.log2_lt_pow2; lia). lia.
Qed.

Lemma rule_lxor m fo (t : Z -> bool) a b :
  0 <= fo ->
  rule m fo t (Z.lxor a b) = Z.lxor (rule m fo t a) (rule m fo t b).
Proof.
  intros Hfo. apply Z.bits_inj'. intros k Hk.
  rewrite Z.lxor_spec.
  destruct m; cbn [rule]; unfold fibonacci_rule, galois_rule; cbv zeta;
    rewrite !testbit_of_bits_Z by done;
    destruct (k <? fo); try reflexivity.
  - destruct (fo - 1 - k <? fo - 1).
    + apply stage_lxor.
    + apply xor_all_lxor.
  - rewrite !stage_lxor.
    destruct (fo - 1 - k <? fo - 1); [|reflexivity].
    destruct (t (fo - 1 - k + 1)); [|reflexivity].
    destruct (stage fo a (fo - 1 - k + 1)), (stage fo b (fo - 1 - k + 1)),
      (stage fo a 0), (stage fo b 0); reflexivity.
Qed.

Lemma xor_all_false (bs : list bool) :
  Forall (fun b => b = false) bs -> xor_all bs = false.
Proof. induction 1 as [|b bs -> _ IH]; [reflexivity|]. cbn. exact IH. Qed.

(** Only the zero state goes to the zero state. *)
Lemma rule_kernel m fo (t : Z -> bool) c :
  1 <= fo -> (m = Fibonacci -> t 0 = true) -> 0 <= c < 2 ^ fo ->
  rule m fo t c = 0 -> c = 0.
Proof.
  intros Hfo Ht Hc H.
  assert (Hb : forall k, 0 <= k -> Z.testbit (rule m fo t c) k = false)
    by (intros k Hk; rewrite H; apply Z.testbit_0_l).
  apply (stages_inj fo); [lia|done| |].
  { split; [lia|]. apply Z.pow_pos_nonneg; lia. }
  assert (Hz : forall i, stage fo 0 i = false)
    by (intros i; apply Z.testbit_0_l).
  intros i Hi. rewrite Hz.
  destruct m; cbn [rule] in Hb; unfold fibonacci_rule, galois_rule in Hb;
    cbv zeta in Hb.
  - (* the stages from 1 on, then stage 0 through the feedback *)
    specialize (Ht eq_refl).
    assert (H1 : forall j, 1 <= j < fo -> stage fo c j = false).
    { intros j Hj. specialize (Hb (fo - j) ltac:(lia)).
      rewrite testbit_of_bits_Z in Hb by lia.
      destruct (Z.ltb_spec (fo - j) fo); [|lia].
      destruct (Z.ltb_spec (fo - 1 - (fo - j)) (fo - 1)); [|lia].
      by replace (fo - 1 - (fo - j) + 1) with j in Hb by lia. }
    destruct (Z.eq_dec i 0) as [->|Hne]; [|apply H1; lia].
    specialize (Hb 0 ltac:(lia)). rewrite testbit_of_bits_Z in Hb by lia.
    destruct (Z.ltb_spec 0 fo); [|lia].
    destruct (Z.ltb_spec (fo - 1 - 0) (fo - 1)); [lia|].
    rewrite (range_cons 0) in Hb by lia. cbn [List.filter] in Hb.
    rewrite Ht, fmap_cons in Hb. cbn [xor_all fold_right] in Hb.
    fold (xor_all (stage fo c <$> List.filter t (range (0 + 1) fo))) in Hb.
    rewrite xor_all_false, xorb_false_r in Hb; [done|].
    apply Forall_fmap, List.Forall_forall. intros x Hx. cbn.
    apply List.filter_In in Hx as [Hx _].
    apply list_elem_of_In, elem_of_range in Hx. apply H1. lia.
  - assert (H0 : stage fo c 0 = false).
    { specialize (Hb 0 ltac:(lia)). rewrite testbit_of_bits_Z in Hb by lia.
      destruct (Z.ltb_spec 0 fo); [|lia].
      by destruct (Z.ltb_spec (fo - 1 - 0) (fo - 1)); [lia|]. }
    destruct (Z.eq_dec i 0) as [->|Hne]; [done|].
    specialize (Hb (fo - i) ltac:(lia)).
    rewrite testbit_of_bits_Z in Hb by lia.
    destruct (Z.ltb_spec (fo - i) fo); [|lia].
    destruct (Z.ltb_spec (fo - 1 - (fo - i)) (fo - 1)); [|lia].
    replace (fo - 1 - (fo - i) + 1) with i in Hb by lia.
    rewrite H0 in Hb. destruct (t i); [|done].
    by rewrite xorb_false_r in Hb.
Qed.

Lemma ready_set_state m r s :
  built m r -> valid_poly m (poly r) -> 0 <= s -> ready m (set_state r s).
Proof. intros Hb Hp Hs. by repeat split. Qed.

Lemma built_valid_field_order m r :
  built m r -> valid_poly m (poly r) -> 1 <= field_order r.
Proof.
  intros Hb Hp. apply (ready_field_order m (set_state r 0)).
  by apply ready_set_state.
Qed.

(** [next()] on the register with its state replaced by an in-range [s]. *)
Lemma next_set_state m r s :
  built m r -> valid_poly m (poly r) -> 0 <= s < 2 ^ field_order r ->
  next m (set_state r s)
  = Ok (set_state r
          (rule m (field_order r) (taps m (field_order r) (poly r)) s),
        rule m (field_order r) (taps m (field_order r) (poly r)) s).
Proof.
  intros Hb Hp Hs. pose proof (built_valid_field_order m r Hb Hp) as Hfo.
  rewrite next_ready by (apply ready_set_state; (done || lia)).
  unfold step. cbn [state set_state poly field_order state_init poly_str].
  by rewrite round_state_rule by done.
Qed.

(** Below [2^29], or whenever the field order does not exceed the number
    of bits of the polynomial, stage 0 is tapped. *)
Lemma padded_tap_0 r :
  built Fibonacci r -> 2 <= poly r ->
  (2 ^ 29 <= poly r -> field_order r <= Z.log2 (poly r) + 1) ->
  padded_tap (field_order r) (poly r) 0 = true.
Proof.
  intros Hb Hp Hle. rewrite padded_tap_tap; [apply tap_0; lia|].
  destruct (Z.lt_ge_cases (poly r) (2 ^ 29)) as [Hs|Hs]; [|by apply Hle].
  by apply built_fibonacci_exact; [|lia].
Qed.

(** The transition is linear over the bitwise XOR: for in-range states [a]
    and [b] of the same register, [next()] from [a XOR b] returns the XOR
    of what [next()] returns from [a] and from [b]. *)
Theorem next_is_linear (m : model) (r : register) (a b : Z) :
  built m r -> valid_poly m (poly r) ->
  0 <= a < 2 ^ field_order r -> 0 <= b < 2 ^ field_order r ->
  exists va vb,
    next m (set_state r a) = Ok (set_state r va, va)
    /\ next m (set_state r b) = Ok (set_state r vb, vb)
    /\ next m (set_state r (Z.lxor a b))
       = Ok (set_state r (Z.lxor va vb), Z.lxor va vb).
Proof.
  intros Hb Hp Ha Hb'.
  pose proof (built_valid_field_order m r Hb Hp) as Hfo.
  eexists _, _. split; [by apply next_set_state|].
  split; [by apply next_set_state|].
  rewrite next_set_state by (done || apply lxor_in_range; (done || lia)).
  by rewrite rule_lxor by lia.
Qed.

(** The transition is injective: from two different in-range states of
    the same register [next()] returns two different states, so no state
    is ever lost from a cycle.  In the external-feedback model this rests on
    stage 0 being tapped, which it is when the field order does not exceed
    the number of bits of the polynomial, as for every polynomial below
    [2^29]. *)
Theorem next_is_injective (m : model) (r : register) (a b : Z) :
  built m r -> valid_poly m (poly r) ->
  (m = Fibonacci -> 2 ^ 29 <= poly r ->
   field_order r <= Z.log2 (poly r) + 1) ->
  0 <= a < 2 ^ field_order r -> 0 <= b < 2 ^ field_order r ->
  a <> b ->
  exists va vb,
    next m (set_state r a) = Ok (set_state r va, va)
    /\ next m (set_state r b) = Ok (set_state r vb, vb)
    /\ va <> vb.
Proof.
  intros Hb Hp Hle Ha Hb' Hne.
  pose proof (built_valid_field_order m r Hb Hp) as Hfo.
  eexists _, _. split; [by apply next_set_state|].
  split; [by apply next_set_state|].
  intros E. apply Hne, Z.lxor_eq.
  apply (rule_kernel m (field_order r) (taps m (field_order r) (poly r))).
  - done.
  - intros ->. cbn [taps]. apply padded_tap_0; [done|done|by apply Hle].
  - apply lxor_in_range; (done || lia).
  - rewrite rule_lxor, E by lia. apply Z.lxor_nilpotent.
Qed.

Lemma set_state_same r : set_state r (state r) = r.
Proof. by destruct r. Qed.

Lemma rule_zero m fo (t : Z -> bool) : 0 <= fo -> rule m fo t 0 = 0.
Proof.
  intros Hfo. pose proof (rule_lxor m fo t 0 0 Hfo) as H.
  rewrite !Z.lxor_nilpotent in H. exact H.
Qed.

(** The all-zero state is a fixed point in both models: from state 0,
    [next()], [cycle] of any number of rounds and [full_cycle()] return 0
    and leave the register as it is. *)
Theorem zero_state_is_fixed (m : model) (r : register) :
  built m r -> valid_poly m (poly r) -> state r = 0 ->
  next m r = Ok (r, 0)
  /\ (forall n, cycle m r n = Ok (r, 0))
  /\ full_cycle m r = Ok (r, 0).
Proof.
  intros Hb Hp Hs.
  pose proof (built_valid_field_order m r Hb Hp) as Hfo.
  pose proof (Z.pow_pos_nonneg 2 (field_order r) ltac:(lia) ltac:(lia)) as Hpow.
  assert (Hn : next m r = Ok (r, 0)).
  { rewrite <- (set_state_same r) at 1. rewrite Hs.
    rewrite next_set_state, rule_zero by (done || lia).
    by rewrite <- Hs, set_state_same. }
  assert (Hf : fround m r = Ok r).
  { unfold next in Hn. destruct (fround m r) as [r'|e]; [|discriminate].
    cbn [bind] in Hn. by injection Hn as ->. }
  assert (Hr : forall n : nat, rounds m n r = Ok r).
  { induction n as [|n IH]; [reflexivity|].
    unfold rounds in *. rewrite Nat.iter_succ, IH. exact Hf. }
  split; [done|]. split.
  - intros n. rewrite cycle_rounds, Hr. cbn [bind]. by rewrite Hs.
  - rewrite full_cycle_rounds, Hr by lia. cbn [bind]. by rewrite Hs.
Qed.

(** ** The transitions as integer operations *)

Lemma testbit_double_b2z a b k :
  0 < k -> Z.testbit (2 * a + Z.b2z b) k = Z.testbit a (k - 1).
Proof.
  intros Hk. replace k with (Z.succ (k - 1)) at 1 by lia.
  apply Z.testbit_succ_r. lia.
Qed.

Lemma testbit_double a k : 0 < k -> Z.testbit (2 * a) k = Z.testbit a (k - 1).
Proof.
  intros Hk. replace k with (Z.succ (k - 1)) at 1 by lia.
  apply Z.testbit_even_succ. lia.
Qed.

Lemma testbit_double_1 a k :
  0 < k -> Z.testbit (2 * a + 1) k = Z.testbit a (k - 1).
Proof.
  intros Hk. replace k with (Z.succ (k - 1)) at 1 by lia.
  apply Z.testbit_odd_succ. lia.
Qed.

Lemma fibonacci_rule_shift fo (t : Z -> bool) s :
  1 <= fo ->
  fibonacci_rule fo t s
  = (2 * s) mod 2 ^ fo
    + Z.b2z (xor_all (stage fo s <$> List.filter t (range 0 fo))).
Proof.
  intros Hfo.
  assert (E : (2 * s) mod 2 ^ fo = 2 * (s mod 2 ^ (fo - 1))).
  { replace (2 ^ fo) with (2 * 2 ^ (fo - 1)).
    - apply Z.mul_mod_distr_l; [|lia].
      pose proof (Z.pow_pos_nonneg 2 (fo - 1) ltac:(lia) ltac:(lia)). lia.
    - rewrite <- Z.pow_succ_r by lia. f_equal. lia. }
  rewrite E. apply Z.bits_inj'. intros k Hk.
  unfold fibonacci_rule. cbv zeta. rewrite testbit_of_bits_Z by lia.
  destruct (Z.eq_dec k 0) as [->|Hne].
  - rewrite Z.testbit_0_r. destruct (Z.ltb_spec 0 fo); [|lia].
    by destruct (Z.ltb_spec (fo - 1 - 0) (fo - 1)); [lia|].
  - rewrite testbit_double_b2z by lia.
    destruct (Z.ltb_spec k fo).
    + destruct (Z.ltb_spec (fo - 1 - k) (fo - 1)); [|lia].
      rewrite Z.mod_pow2_bits_low by lia. unfold stage. f_equal. lia.
    + by rewrite Z.mod_pow2_bits_high by lia.
Qed.

(** [next()] of the external-feedback register is a shift to the left
    within [field_order] bits with the feedback bit entering at the right:
    it returns [(2 * state) mod 2^field_order + feedback], the feedback
    being the XOR of the stages tapped by the digits of [poly_str], the
    polynomial padded to [field_order] digits.  When the field order does
    not exceed the number of bits of the polynomial, as for every
    polynomial below [2^29], these are the bits of its minimal binary
    representation. *)
Theorem fibonacci_next_is_shift (r : register) :
  built Fibonacci r -> 2 <= poly r -> 0 <= state r < 2 ^ field_order r ->
  exists v,
    next Fibonacci r = Ok (set_state r v, v)
    /\ v = (2 * state r) mod 2 ^ field_order r
           + Z.b2z (xor_all (stage (field_order r) (state r)
                               <$> List.filter
                                     (padded_tap (field_order r) (poly r))
                                     (range 0 (field_order r))))
    /\ v / 2 = state r mod 2 ^ (field_order r - 1)
    /\ (field_order r <= Z.log2 (poly r) + 1 ->
        List.filter (padded_tap (field_order r) (poly r))
          (range 0 (field_order r))
        = List.filter (tap (poly r)) (range 0 (field_order r)))
    /\ (poly r < 2 ^ 29 -> field_order r <= Z.log2 (poly r) + 1).
Proof.
  intros Hb Hp Hs.
  pose proof (built_valid_field_order Fibonacci r Hb Hp) as Hfo.
  eexists. split; [|split; [reflexivity|split; [|split]]].
  - rewrite <- (set_state_same r) at 1.
    rewrite (next_set_state Fibonacci) by done. cbn [rule taps].
    by rewrite fibonacci_rule_shift by done.
  - replace (2 ^ field_order r) with (2 * 2 ^ (field_order r - 1)).
    + pose proof (Z.pow_pos_nonneg 2 (field_order r - 1) ltac:(lia) ltac:(lia)).
      rewrite Z.mul_mod_distr_l by lia.
      match goal with |- context [Z.b2z ?b] => destruct b end; cbn [Z.b2z].
      * rewrite Z.add_comm, Z.mul_comm, Z.div_add by lia. reflexivity.
      * rewrite Z.add_0_r, Z.mul_comm, Z.div_mul by lia. reflexivity.
    + rewrite <- Z.pow_succ_r by lia. f_equal. lia.
  - intros Hle. apply filter_range_ext. intros x _. by apply padded_tap_tap.
  - intros Hlt. by apply built_fibonacci_exact; [|lia].
Qed.

Lemma testbit_top fo s :
  1 <= fo -> 2 ^ (fo - 1) <= s < 2 ^ fo -> Z.testbit s (fo - 1) = true.
Proof.
  intros Hfo Hs.
  replace (fo - 1) with (Z.log2 s) at 1.
  - apply Z.bit_log2.
    pose proof (Z.pow_pos_nonneg 2 (fo - 1) ltac:(lia) ltac:(lia)). lia.
  - apply Z.log2_unique; [lia|]. by replace (Z.succ (fo - 1)) with fo by lia.
Qed.

Lemma galois_rule_shift p s :
  1 <= p -> 0 <= s < 2 ^ (Z.log2 p + 1) ->
  galois_rule (Z.log2 p + 1) (tap p) s
  = if s <? 2 ^ Z.log2 p then 2 * s else Z.lxor (2 * s) (2 * p + 1).
Proof.
  intros Hp Hs. pose proof (Z.log2_nonneg p) as Hl.
  pose proof (Z.log2_spec p ltac:(lia)) as Hps.
  rewrite <- Z.add_1_r in Hps.
  set (fo := Z.log2 p + 1) in *.
  assert (Efo : fo - 1 = Z.log2 p) by (unfold fo; lia).
  apply Z.bits_inj'. intros k Hk.
  unfold galois_rule. cbv zeta. rewrite testbit_of_bits_Z by lia.
  assert (Hstage : forall j, stage fo s j = Z.testbit s (fo - 1 - j)) by done.
  assert (Htap : forall j, tap p j = Z.testbit p (fo - 1 - j))
    by (intros j; unfold tap; by rewrite Efo).
  rewrite !Hstage, Z.sub_0_r.
  destruct (Z.ltb_spec s (2 ^ Z.log2 p)) as [Hlow|Hhigh].
  - (* the top stage is 0: a plain shift *)
    assert (Hmsb : Z.testbit s (fo - 1) = false)
      by (apply (testbit_in_range (fo - 1)); [rewrite Efo|]; lia).
    rewrite Hmsb.
    destruct (Z.eq_dec k 0) as [->|Hne].
    + rewrite Z.testbit_even_0. destruct (Z.ltb_spec 0 fo); [|lia].
      by destruct (Z.ltb_spec (fo - 1 - 0) (fo - 1)); [lia|].
    + rewrite testbit_double by lia.
      destruct (Z.ltb_spec k fo).
      * destruct (Z.ltb_spec (fo - 1 - k) (fo - 1)); [|lia].
        rewrite xorb_false_r.
        replace (fo - 1 - (fo - 1 - k + 1)) with (k - 1) by lia.
        by destruct (tap p _).
      * symmetry. apply (testbit_in_range (fo - 1)); [rewrite Efo|]; lia.
  - (* the top stage is 1: shift, then XOR with the polynomial *)
    assert (Hmsb : Z.testbit s (fo - 1) = true)
      by (apply testbit_top; [|rewrite Efo]; lia).
    assert (Hpmsb : Z.testbit p (fo - 1) = true)
      by (apply testbit_top; [|rewrite Efo]; lia).
    rewrite Hmsb, Z.lxor_spec.
    destruct (Z.eq_dec k 0) as [->|Hne].
    + rewrite Z.testbit_even_0, Z.testbit_odd_0.
      destruct (Z.ltb_spec 0 fo); [|lia].
      by destruct (Z.ltb_spec (fo - 1 - 0) (fo - 1)); [lia|].
    + rewrite testbit_double, testbit_double_1 by lia.
      destruct (Z.ltb_spec k fo).
      * destruct (Z.ltb_spec (fo - 1 - k) (fo - 1)); [|lia].
        rewrite Htap.
        replace (fo - 1 - (fo - 1 - k + 1)) with (k - 1) by lia.
        destruct (Z.testbit p (k - 1)), (Z.testbit s (k - 1)); reflexivity.
      * destruct (Z.eq_dec k fo) as [->|Hk2].
        -- by rewrite Hmsb, Hpmsb.
        -- by rewrite !(testbit_in_range fo) by lia.
Qed.

(** [next()] of the internal-feedback register is the usual Galois update:
    the state is doubled, and when its top stage was set the result is
    XORed with [2 * polynomial + 1], which clears the bit shifted out. *)
Theorem galois_next_is_shift_xor (r : register) :
  built Galois r -> 1 <= poly r -> 0 <= state r < 2 ^ field_order r ->
  next Galois r
  = (if state r <? 2 ^ (field_order r - 1)
     then Ok (set_state r (2 * state r), 2 * state r)
     else Ok (set_state r (Z.lxor (2 * state r) (2 * poly r + 1)),
              Z.lxor (2 * state r) (2 * poly r + 1))).
Proof.
  intros Hb Hp Hs.
  destruct (built_galois r Hb ltac:(lia)) as (Hfo & _).
  rewrite <- (set_state_same r) at 1.
  rewrite (next_set_state Galois) by done. cbn [rule taps].
  rewrite Hfo in *. rewrite galois_rule_shift by done.
  replace (Z.log2 (poly r) + 1 - 1) with (Z.log2 (poly r)) by lia.
  by destruct (state r <? 2 ^ Z.log2 (poly r)).
Qed.

(** ** Polynomials that are powers of two *)

Lemma state_iter_rule m n r :
  ready m r -> in_range r ->
  state (Nat.iter n (step m) r)
  = Nat.iter n (rule m (field_order r) (taps m (field_order r) (poly r)))
      (state r)
  /\ in_range (Nat.iter n (step m) r).
Proof.
  intros Hr Hin. induction n as [|n [IH1 IH2]]; [done|].
  rewrite !Nat.iter_succ.
  pose proof (rounds_ready m n r Hr) as [_ Hrn].
  pose proof (iter_step_frame m n r) as (Ep & Ef & _).
  split; [|by apply step_in_range].
  unfold step at 1. cbn [state set_state].
  rewrite round_state_rule, Ep, Ef, IH1.
  - reflexivity.
  - rewrite Ef. by apply (ready_field_order m).
  - exact IH2.
Qed.

Lemma register_ext r1 r2 :
  poly r1 = poly r2 -> state r1 = state r2 -> state_init r1 = state_init r2 ->
  field_order r1 = field_order r2 -> poly_str r1 = poly_str r2 -> r1 = r2.
Proof. destruct r1, r2. cbn. by intros -> -> -> -> ->. Qed.

Lemma tap_pow2 k i : 0 <= k -> tap (2 ^ k) i = (i =? 0).
Proof.
  intros Hk. unfold tap. rewrite Z.log2_pow2, Z.pow2_bits_eqb by done.
  destruct (Z.eqb_spec k (k - i)), (Z.eqb_spec i 0); (reflexivity || lia).
Qed.

Lemma filter_none {A} (f : A -> bool) (l : list A) :
  (forall x, In x l -> f x = false) -> List.filter f l = [].
Proof.
  induction l as [|x l IH]; intros H; [reflexivity|].
  cbn [List.filter]. rewrite (H x) by (by left).
  apply IH. intros y Hy. apply H. by right.
Qed.

(** With stage 0 the only tap, a round moves every stage up by one and
    stage 0 to the last place. *)
Lemma stage_rule_rotate fo (t : Z -> bool) s i :
  1 <= fo -> (forall j, 0 <= j < fo -> t j = (j =? 0)) -> 0 <= i < fo ->
  stage fo (fibonacci_rule fo t s) i = stage fo s ((i + 1) mod fo).
Proof.
  intros Hfo Ht Hi. unfold stage at 1, fibonacci_rule. cbv zeta.
  rewrite testbit_of_bits_Z by lia.
  destruct (Z.ltb_spec (fo - 1 - i) fo); [|lia].
  replace (fo - 1 - (fo - 1 - i)) with i by lia.
  destruct (Z.ltb_spec i (fo - 1)).
  - by rewrite Z.mod_small by lia.
  - replace (i + 1) with fo by lia. rewrite Z_mod_same_full.
    rewrite (range_cons 0) by lia. cbn [List.filter].
    rewrite Ht by lia. cbn [Z.eqb].
    rewrite filter_none; [cbn; apply xorb_false_r|].
    intros x Hx. apply list_elem_of_In, elem_of_range in Hx.
    rewrite Ht by lia. destruct (Z.eqb_spec x 0); [lia|reflexivity].
Qed.

Lemma stage_iter_rule_rotate fo (t : Z -> bool) (n : nat) s i :
  1 <= fo -> (forall j, 0 <= j < fo -> t j = (j =? 0)) -> 0 <= i < fo ->
  stage fo (Nat.iter n (fibonacci_rule fo t) s) i
  = stage fo s ((i + Z.of_nat n) mod fo).
Proof.
  intros Hfo Ht. revert i. induction n as [|n IH]; intros i Hi.
  - cbn [Nat.iter Z.of_nat]. by rewrite Z.add_0_r, Z.mod_small by lia.
  - rewrite Nat.iter_succ, stage_rule_rotate by done.
    rewrite IH by (apply Z.mod_pos_bound; lia).
    rewrite Zplus_mod_idemp_l. f_equal. f_equal. lia.
Qed.

(** With a polynomial [2^k] the external-feedback register taps only stage
    0 and rotates over its [field_order] stages: after [next()] stage [i]
    holds what stage [i + 1] held, the last stage what stage 0 held; so
    [cycle(field_order)] returns every in-range state to itself.  The field
    order is [k] for [k] below 29; beyond, the statement is for a field
    order of at most the [k + 1] bits of the polynomial. *)
Theorem power_of_two_polynomial_rotates (r : register) (k : Z) :
  1 <= k -> built Fibonacci r -> poly r = 2 ^ k ->
  (29 <= k -> field_order r <= k + 1) ->
  0 <= state r < 2 ^ field_order r ->
  (k < 29 -> field_order r = k)
  /\ (exists v,
        next Fibonacci r = Ok (set_state r v, v)
        /\ forall i, 0 <= i < field_order r ->
             stage (field_order r) v i
             = stage (field_order r) (state r) ((i + 1) mod field_order r))
  /\ cycle Fibonacci r (field_order r) = Ok (r, state r).
Proof.
  intros Hk Hb Hp Hle Hs.
  assert (Hp2 : 2 <= poly r).
  { rewrite Hp. change 2 with (2 ^ 1) at 1. apply Z.pow_le_mono_r; lia. }
  assert (Hr : ready Fibonacci r) by (split; [done|split; [done|lia]]).
  pose proof (ready_field_order _ _ Hr) as Hfo.
  assert (Hexact : k < 29 -> field_order r = k).
  { intros Hlt. destruct (built_fibonacci_exact r Hb) as [E _].
    - rewrite Hp. split; [lia|]. apply Z.pow_lt_mono_r; lia.
    - by rewrite E, Hp, Z.log2_up_pow2 by lia. }
  assert (Hfk : field_order r <= k + 1).
  { destruct (Z.lt_ge_cases k 29); [rewrite Hexact; lia|by apply Hle]. }
  assert (Ht : forall j, 0 <= j < field_order r ->
            padded_tap (field_order r) (poly r) j = (j =? 0)).
  { intros j Hj. rewrite padded_tap_tap, Hp.
    - apply tap_pow2. lia.
    - rewrite Hp, Z.log2_pow2 by lia. done. }
  split; [done|]. split.
  - eexists. split.
    + rewrite <- (set_state_same r) at 1.
      by rewrite (next_set_state Fibonacci) by done.
    + intros i Hi. cbn [rule taps]. by apply stage_rule_rotate.
  - rewrite cycle_rounds.
    destruct (rounds_ready Fibonacci (Z.to_nat (field_order r)) r Hr)
      as [-> _].
    cbn [bind].
    destruct (state_iter_rule Fibonacci (Z.to_nat (field_order r)) r Hr Hs)
      as [Est Hin].
    pose proof (iter_step_frame Fibonacci (Z.to_nat (field_order r)) r)
      as (Ep & Ef & Ei & Es).
    assert (E : state (Nat.iter (Z.to_nat (field_order r)) (step Fibonacci) r)
                = state r).
    { apply (stages_inj (field_order r)); [lia| |done|].
      - unfold in_range in Hin. by rewrite Ef in Hin.
      - intros i Hi. rewrite Est. cbn [rule taps].
        rewrite stage_iter_rule_rotate by done.
        rewrite Z2Nat.id by lia.
        replace (i + field_order r) with (i + 1 * field_order r) by lia.
        by rewrite Z_mod_plus_full, Z.mod_small by lia. }
    rewrite E. do 2 f_equal. by apply register_ext.
Qed.

(** ** The bit strings of the state table *)

Lemma int2_format_b w n : 0 <= n -> int2 (format_b w n) = Ok n.
Proof.
  intros Hn. pose proof (width_ge w n) as [_ Hw].
  pose proof (Z.log2_nonneg n) as Hl.
  rewrite format_b_stages, int2_bits by (done || apply stages_nonempty; lia).
  f_equal. unfold of_bits.
  rewrite <- (Z2Nat.id (width w n)) by lia.
  rewrite fold_stage_bits; [lia|]. rewrite Z2Nat.id by lia.
  split; [done|].
  destruct (Z.eq_dec n 0) as [->|Hne]; [apply Z.pow_pos_nonneg; lia|].
  apply Z.log2_lt_pow2; [lia|]. unfold width. lia.
Qed.

Lemma len_format_b w n : 0 <= n -> len (format_b w n) = width w n.
Proof.
  intros Hn. pose proof (width_ge w n) as [_ Hw].
  rewrite format_b_bits by done. by rewrite len_fmap_range by lia.
Qed.

(** In the table [state_table] returns, the bit string of every record
    reads back, in base 2, as the state of the same record; it has at least
    [field_order] characters, and exactly that many when the state is below
    [2^field_order]. *)
Theorem state_table_strings_decode (m : model) (r : register) :
  built m r -> valid_poly m (poly r) -> 0 <= state r ->
  exists r' t,
    state_table m r = Ok (r', t)
    /\ forall (k : nat) s,
         State t !! k = Some s ->
         exists bits,
           Register_State t !! k = Some bits
           /\ int2 bits = Ok s
           /\ field_order r <= len bits
           /\ (s < 2 ^ field_order r -> len bits = field_order r).
Proof.
  intros Hb Hp Hs. assert (Hr : ready m r) by done.
  pose proof (ready_field_order m r Hr) as Hfo.
  eexists _, _. split; [by apply state_table_trajectory|].
  cbn [State Register_State]. intros k s Hk.
  rewrite list_lookup_fmap in Hk. rewrite list_lookup_fmap.
  destruct (trajectory _ _ _ !! k) as [x|] eqn:Ex; [|discriminate].
  injection Hk as <-.
  pose proof (lookup_lt_Some _ _ _ Ex) as Hlen.
  rewrite length_trajectory in Hlen.
  rewrite lookup_trajectory in Ex by done. injection Ex as <-.
  destruct (rounds_ready m k r Hr) as [_ (_ & _ & Hnn)].
  eexists. split; [reflexivity|].
  split; [by apply int2_format_b|].
  rewrite len_format_b by done. split.
  - apply width_ge.
  - intros Hlt. apply width_in_range; lia.
Qed.

(** ** A composite of one register *)

(** [from_lfsrs] on a single register with a non-negative polynomial and
    initial state returns that register as its [reset()] leaves it: the
    padded binary strings read back as the same integers, so polynomial,
    initial state and field order are reproduced. *)
Theorem from_lfsrs_single (m : model) (a : register) :
  built m a -> 0 <= poly a -> 0 <= state_init a ->
  from_lfsrs m [a] = Ok ([restored a], restored a).
Proof.
  intros Hb Hp Hs. unfold from_lfsrs. cbn [for_each].
  rewrite reset_built by done. cbn [bind app poly state field_order].
  rewrite !int2_format_b by done. cbn [bind].
  fold (reset m a). by rewrite reset_built by done.
Qed.

End Registers.

(** ** The statements on concrete registers

    Each statement of the section at a register, with [sample_excess] for
    the floating-point logarithm where a construction is involved, and the
    inputs at which the claims that fail do so. *)

Lemma fibonacci_next_beyond_exact_range_witness :
  exists r,
    init sample_excess Fibonacci (2 ^ 51 - 1) (2 ^ 51) = Ok r
    /\ field_order r = 52
    /\ next Fibonacci r = Ok (set_state r 0, 0)
    /\ fibonacci_rule (field_order r) (tap (poly r)) (state r) = 1.
Proof.
  destruct (fibonacci_next_beyond_exact_range sample_excess)
    as (r & Ei & Hfo & _ & _ & Hn & Hr).
  - reflexivity.
  - exists r. split; [exact Ei|]. split; [exact Hfo|]. split; [exact Hn|exact Hr].
Defined.

Lemma field_order_beyond_exact_range_witness :
  exists rf rg,
    init sample_excess Fibonacci (2 ^ 29) 1 = Ok rf
    /\ init sample_excess Galois (2 ^ 29) 1 = Ok rg
    /\ field_order rf = 30 /\ Z.log2_up (poly rf) = 29
    /\ field_order rg = 30.
Proof.
  destruct (field_order_beyond_exact_range sample_excess 1)
    as (rf & rg & Ef & Eg & Hf & _ & _ & Hl & Hg).
  - reflexivity.
  - exists rf, rg. split; [exact Ef|]. split; [exact Eg|].
    split; [exact Hf|]. split; [exact Hl|exact Hg].
Defined.

Lemma fibonacci_next_padded_rule_witness :
  next Fibonacci
    {| poly := 11; state := 1; state_init := 1; field_order := 4;
       poly_str := lit "1011" |}
  = Ok ({| poly := 11; state := 3; state_init := 1; field_order := 4;
           poly_str := lit "1011" |}, 3).
Proof.
  refine (proj1 (fibonacci_next_padded_rule sample_excess
    {| poly := 11; state := 1; state_init := 1; field_order := 4;
       poly_str := lit "1011" |} _ _ _)).
  - reflexivity.
  - cbn. lia.
  - cbn. lia.
Defined.

Lemma galois_next_rule_witness :
  next Galois
    {| poly := 19; state := 1; state_init := 1; field_order := 5;
       poly_str := lit "10011" |}
  = Ok ({| poly := 19; state := 2; state_init := 1; field_order := 5;
           poly_str := lit "10011" |}, 2).
Proof.
  refine (proj1 (galois_next_rule sample_excess
    {| poly := 19; state := 1; state_init := 1; field_order := 5;
       poly_str := lit "10011" |} _ _ _)).
  - reflexivity.
  - cbn. lia.
  - cbn. lia.
Defined.

Lemma cycle_is_repeated_next_witness :
  cycle Galois
    {| poly := 19; state := 1; state_init := 1; field_order := 5;
       poly_str := lit "10011" |} 3
  = next_times Galois 3
      {| poly := 19; state := 1; state_init := 1; field_order := 5;
         poly_str := lit "10011" |}.
Proof.
  refine (proj1 (cycle_is_repeated_next sample_excess Galois
    {| poly := 19; state := 1; state_init := 1; field_order := 5;
       poly_str := lit "10011" |} 3 _ _)).
  - reflexivity.
  - lia.
Defined.

Lemma state_table_enumerates_witness :
  exists t,
    state_table sample_excess Fibonacci
      {| poly := 11; state := 3; state_init := 1; field_order := 4;
         poly_str := lit "1011" |}
    = Ok ({| poly := 11; state := 1; state_init := 1; field_order := 4;
             poly_str := lit "1011" |}, t)
    /\ len (State t) = 16.
Proof.
  destruct (state_table_enumerates sample_excess Fibonacci
    {| poly := 11; state := 3; state_init := 1; field_order := 4;
       poly_str := lit "1011" |}) as (regs & H & Hl & _).
  - reflexivity.
  - cbn. lia.
  - cbn. lia.
  - eexists. split; [exact H|].
    cbn [State]. unfold len in *. by rewrite length_fmap.
Defined.

Lemma state_range_after_transitions_witness :
  exists r',
    cycle Fibonacci
      {| poly := 11; state := 1; state_init := 1; field_order := 4;
         poly_str := lit "1011" |} 5
    = Ok (r', state r')
    /\ 0 <= state r' < 2 ^ field_order r'.
Proof.
  destruct (state_range_after_transitions sample_excess Fibonacci
    {| poly := 11; state := 1; state_init := 1; field_order := 4;
       poly_str := lit "1011" |}) as (_ & H & _).
  - reflexivity.
  - cbn. lia.
  - cbn. lia.
  - intros _. cbn. lia.
  - apply (H 5). lia.
Defined.

Lemma field_order_derivation_witness :
  exists rf rg,
    init sample_excess Fibonacci 8 1 = Ok rf
    /\ init sample_excess Galois 8 1 = Ok rg
    /\ field_order rg = field_order rf + 1.
Proof.
  destruct (field_order_derivation sample_excess 8 1) as (_ & _ & H).
  - lia.
  - destruct H as (rf & rg & Ef & Eg & _ & H & _); [reflexivity|].
    exists rf, rg. split; [exact Ef|]. split; [exact Eg|].
    apply H. exists 3. split; [lia|reflexivity].
Defined.

Lemma degenerate_polynomials_witness :
  exists r, init sample_excess Fibonacci 1 7 = Ok r /\ field_order r = 0
            /\ (0 <= 7 -> next Fibonacci r = Raise TypeError).
Proof.
  destruct (degenerate_polynomials sample_excess 1 7) as (_ & _ & _ & H & _).
  - lia.
  - apply H. reflexivity.
Defined.

Lemma lifecycle_witness :
  exists r',
    reset sample_excess Galois
      {| poly := 19; state := 4; state_init := 1; field_order := 5;
         poly_str := lit "10011" |} = Ok r'
    /\ state r' = 1.
Proof.
  destruct (lifecycle sample_excess Galois 19 1 [Next; Cycle_rounds 1]
    {| poly := 19; state := 1; state_init := 1; field_order := 5;
       poly_str := lit "10011" |}
    {| poly := 19; state := 4; state_init := 1; field_order := 5;
       poly_str := lit "10011" |}) as ((r' & E & Hs & _) & _).
  - reflexivity.
  - reflexivity.
  - exists r'. split; [exact E|exact Hs].
Defined.

Lemma galois_algebraic_constant_term_witness :
  Galois_LFSR.algebraic
    {| poly := 18; state := 1; state_init := 1; field_order := 5;
       poly_str := lit "10010" |}
  = Ok (lit "x ^ 5 + x ^ 2 + 1").
Proof.
  refine (proj1 (galois_algebraic_constant_term sample_excess
    {| poly := 18; state := 1; state_init := 1; field_order := 5;
       poly_str := lit "10010" |} _)).
  reflexivity.
Defined.

Lemma from_lfsrs_concatenates_witness :
  exists r,
    from_lfsrs sample_excess Galois
      [ {| poly := 19; state := 4; state_init := 1; field_order := 5;
           poly_str := lit "10011" |};
        {| poly := 3; state := 2; state_init := 2; field_order := 2;
           poly_str := lit "11" |} ]
    = Ok ([ {| poly := 19; state := 1; state_init := 1; field_order := 5;
               poly_str := lit "10011" |};
            {| poly := 3; state := 2; state_init := 2; field_order := 2;
               poly_str := lit "11" |} ], r)
    /\ field_order r = 7 /\ poly r = 79 /\ state r = 6.
Proof.
  destruct (from_lfsrs_concatenates sample_excess Galois
    [ {| poly := 19; state := 4; state_init := 1; field_order := 5;
         poly_str := lit "10011" |};
      {| poly := 3; state := 2; state_init := 2; field_order := 2;
         poly_str := lit "11" |} ]) as (E & Hi & _ & Hfo).
  - discriminate.
  - repeat apply List.Forall_cons; [| |apply List.Forall_nil];
      (split; [reflexivity|cbn; lia]).
  - destruct Hfo as (r & Er & Hr).
    + repeat apply List.Forall_cons; [| |apply List.Forall_nil]; cbn; lia.
    + discriminate.
    + destruct (Hi r Er) as (Hp & Hs & _).
      exists r. rewrite E, Er. split; [reflexivity|].
      split; [exact Hr|]. by rewrite Hp, Hs.
Defined.

Lemma fibonacci_algebraic_witness :
  LFSR.algebraic
    {| poly := 11; state := 1; state_init := 1; field_order := 4;
       poly_str := lit "1011" |}
  = Ok (lit "x ^ 3 + x + 1").
Proof.
  destruct (fibonacci_algebraic sample_excess
    {| poly := 11; state := 1; state_init := 1; field_order := 4;
       poly_str := lit "1011" |}) as (_ & _ & H & _).
  - reflexivity.
  - cbn. lia.
  - apply H. cbn. lia.
Defined.

Lemma negative_state_raises_witness :
  (let* r := init sample_excess Galois 19 (-1) in next Galois r)
  = Raise ValueError.
Proof.
  refine (proj1 (negative_state_raises sample_excess Galois
    {| poly := 19; state := -1; state_init := -1; field_order := 5;
       poly_str := lit "10011" |} _ _)).
  - reflexivity.
  - cbn. lia.
Defined.

Lemma cycle_composes_witness :
  cycle Fibonacci
    {| poly := 11; state := 1; state_init := 1; field_order := 4;
       poly_str := lit "1011" |} (2 + 3)
  = (let* (r', _) :=
       cycle Fibonacci
         {| poly := 11; state := 1; state_init := 1; field_order := 4;
            poly_str := lit "1011" |} 2 in
     cycle Fibonacci r' 3).
Proof.
  refine (proj1 (cycle_composes Fibonacci
    {| poly := 11; state := 1; state_init := 1; field_order := 4;
       poly_str := lit "1011" |} 2 3 _ _)); lia.
Defined.

Lemma from_lfsrs_ignores_current_state_witness :
  from_lfsrs sample_excess Galois
    [ {| poly := 19; state := 4; state_init := 1; field_order := 5;
         poly_str := lit "10011" |} ]
  = from_lfsrs sample_excess Galois
      [ {| poly := 19; state := 1; state_init := 1; field_order := 5;
           poly_str := lit "10011" |} ].
Proof.
  apply (from_lfsrs_ignores_current_state sample_excess).
  repeat constructor.
Defined.

Lemma next_is_linear_witness :
  exists va vb,
    next Galois
      {| poly := 19; state := 9; state_init := 1; field_order := 5;
         poly_str := lit "10011" |}
    = Ok ({| poly := 19; state := va; state_init := 1; field_order := 5;
             poly_str := lit "10011" |}, va)
    /\ next Galois
         {| poly := 19; state := 20; state_init := 1; field_order := 5;
            poly_str := lit "10011" |}
       = Ok ({| poly := 19; state := vb; state_init := 1; field_order := 5;
                poly_str := lit "10011" |}, vb)
    /\ next Galois
         {| poly := 19; state := 29; state_init := 1; field_order := 5;
            poly_str := lit "10011" |}
       = Ok ({| poly := 19; state := Z.lxor va vb; state_init := 1;
                field_order := 5; poly_str := lit "10011" |}, Z.lxor va vb).
Proof.
  refine (next_is_linear sample_excess Galois
    {| poly := 19; state := 1; state_init := 1; field_order := 5;
       poly_str := lit "10011" |} 9 20 _ _ _ _).
  - reflexivity.
  - cbn. lia.
  - cbn. lia.
  - cbn. lia.
Defined.

Lemma next_is_injective_witness :
  exists va vb,
    next Fibonacci
      {| poly := 11; state := 6; state_init := 1; field_order := 4;
         poly_str := lit "1011" |}
    = Ok ({| poly := 11; state := va; state_init := 1; field_order := 4;
             poly_str := lit "1011" |}, va)
    /\ next Fibonacci
         {| poly := 11; state := 3; state_init := 1; field_order := 4;
            poly_str := lit "1011" |}
       = Ok ({| poly := 11; state := vb; state_init := 1; field_order := 4;
                poly_str := lit "1011" |}, vb)
    /\ va <> vb.
Proof.
  refine (next_is_injective sample_excess Fibonacci
    {| poly := 11; state := 1; state_init := 1; field_order := 4;
       poly_str := lit "1011" |} 6 3 _ _ _ _ _ _).
  - reflexivity.
  - cbn. lia.
  - intros _ H. cbn in H. lia.
  - cbn. lia.
  - cbn. lia.
  - lia.
Defined.

Lemma zero_state_is_fixed_witness :
  full_cycle Fibonacci
    {| poly := 11; state := 0; state_init := 0; field_order := 4;
       poly_str := lit "1011" |}
  = Ok ({| poly := 11; state := 0; state_init := 0; field_order := 4;
           poly_str := lit "1011" |}, 0).
Proof.
  destruct (zero_state_is_fixed sample_excess Fibonacci
    {| poly := 11; state := 0; state_init := 0; field_order := 4;
       poly_str := lit "1011" |}) as (_ & _ & H).
  - reflexivity.
  - cbn. lia.
  - reflexivity.
  - exact H.
Defined.

Lemma fibonacci_next_is_shift_witness :
  exists v,
    next Fibonacci
      {| poly := 11; state := 13; state_init := 1; field_order := 4;
         poly_str := lit "1011" |}
    = Ok ({| poly := 11; state := v; state_init := 1; field_order := 4;
             poly_str := lit "1011" |}, v)
    /\ v / 2 = 13 mod 2 ^ 3.
Proof.
  destruct (fibonacci_next_is_shift sample_excess
    {| poly := 11; state := 13; state_init := 1; field_order := 4;
       poly_str := lit "1011" |}) as (v & E & _ & H & _).
  - reflexivity.
  - cbn. lia.
  - cbn. lia.
  - exists v. split; [exact E|exact H].
Defined.

Lemma galois_next_is_shift_xor_witness :
  next Galois
    {| poly := 19; state := 16; state_init := 1; field_order := 5;
       poly_str := lit "10011" |}
  = Ok ({| poly := 19; state := 7; state_init := 1; field_order := 5;
           poly_str := lit "10011" |}, 7).
Proof.
  refine (galois_next_is_shift_xor sample_excess
    {| poly := 19; state := 16; state_init := 1; field_order := 5;
       poly_str := lit "10011" |} _ _ _).
  - reflexivity.
  - cbn. lia.
  - cbn. lia.
Defined.

Lemma power_of_two_polynomial_rotates_witness :
  cycle Fibonacci
    {| poly := 8; state := 5; state_init := 1; field_order := 3;
       poly_str := lit "1000" |} 3
  = Ok ({| poly := 8; state := 5; state_init := 1; field_order := 3;
           poly_str := lit "1000" |}, 5).
Proof.
  destruct (power_of_two_polynomial_rotates sample_excess
    {| poly := 8; state := 5; state_init := 1; field_order := 3;
       poly_str := lit "1000" |} 3) as (_ & _ & H).
  - lia.
  - reflexivity.
  - reflexivity.
  - lia.
  - cbn. lia.
  - exact H.
Defined.

Lemma state_table_strings_decode_witness :
  exists r' t,
    state_table sample_excess Galois
      {| poly := 19; state := 1; state_init := 1; field_order := 5;
         poly_str := lit "10011" |} = Ok (r', t)
    /\ forall (k : nat) s,
         State t !! k = Some s ->
         exists bits,
           Register_State t !! k = Some bits
           /\ int2 bits = Ok s
           /\ 5 <= len bits
           /\ (s < 2 ^ 5 -> len bits = 5).
Proof.
  refine (state_table_strings_decode sample_excess Galois
    {| poly := 19; state := 1; state_init := 1; field_order := 5;
       poly_str := lit "10011" |} _ _ _).
  - reflexivity.
  - cbn. lia.
  - cbn. lia.
Defined.

Lemma from_lfsrs_single_witness :
  from_lfsrs sample_excess Fibonacci
    [ {| poly := 8; state := 5; state_init := 1; field_order := 3;
         poly_str := lit "1000" |} ]
  = Ok ([ {| poly := 8; state := 1; state_init := 1; field_order := 3;
             poly_str := lit "1000" |} ],
        {| poly := 8; state := 1; state_init := 1; field_order := 3;
           poly_str := lit "1000" |}).
Proof.
  refine (from_lfsrs_single sample_excess Fibonacci
    {| poly := 8; state := 5; state_init := 1; field_order := 3;
       poly_str := lit "1000" |} _ _ _).
  - reflexivity.
  - cbn. lia.
  - cbn. lia.
Defined.

(** The registers double precision builds beyond the exact range.  With
    polynomial [2^29] the field order is 30: from state [2^28], [next()]
    returns [2^29], and from state 1, [cycle(29)] returns [2^29] and only
    [cycle(30)] returns 1. *)
Example fibonacci_2_29_next :
  (let* r := init sample_excess Fibonacci (2 ^ 29) (2 ^ 28) in
   let* (_, v) := next Fibonacci r in Ok v)
  = Ok (2 ^ 29).
Proof. vm_compute. reflexivity. Qed.

Example fibonacci_2_29_cycle :
  (let* r := init sample_excess Fibonacci (2 ^ 29) 1 in
   let* (r, v) := cycle Fibonacci r 29 in
   let* (_, w) := next Fibonacci r in Ok (v, w))
  = Ok (2 ^ 29, 1).
Proof. vm_compute. reflexivity. Qed.

(** With polynomial [2^51 - 1] the field order is 52 and the in-range states
    0 and [2^51] both go to 0. *)
Example fibonacci_2_51_collision :
  (let* r := init sample_excess Fibonacci (2 ^ 51 - 1) 0 in
   let* (_, v) := next Fibonacci r in
   let* r := load sample_excess Fibonacci r (2 ^ 51) in
   let* (_, w) := next Fibonacci r in Ok (v, w))
  = Ok (0, 0).
Proof. vm_compute. reflexivity. Qed.

(** An initial state of more bits than the field order keeps them all in a
    composite register: the internal-feedback registers (3, 1) and (3, 5),
    of field order 2, compose into the state 0b01101. *)
Example from_lfsrs_wide_state :
  (let* a := init sample_excess Galois 3 1 in
   let* b := init sample_excess Galois 3 5 in
   let* (_, r) := from_lfsrs sample_excess Galois [a; b] in
   Ok (poly r, state r, field_order r))
  = Ok (15, 13, 4).
Proof. vm_compute. reflexivity. Qed.

(** C5 as stated fails, whatever the floating-point logarithm returns: the
    constructor accepts a state that does not fit the register, and a round
    of the external-feedback model keeps the digits beyond the field order.
    With polynomial 0b1011 (field order 4) and state 48, [next()] returns
    36. *)
Lemma state_range_counterexample :
  ~ (exists float_excess,
       forall (m : model) (p s : Z) (r r' : register) (v : Z),
         init float_excess m p s = Ok r -> next m r = Ok (r', v) ->
         0 <= state r' < 2 ^ field_order r').
Proof.
  intros [fe H].
  specialize (H Fibonacci 11 48 _ _ _ eq_refl eq_refl).
  destruct H as [_ H]. vm_compute in H. discriminate.
Qed.

(** C4 as stated fails, whatever the floating-point logarithm returns: the
    external-feedback constructor accepts the polynomial 1 and the
    internal-feedback constructor accepts the polynomial 0; neither raises
    any error. *)
Lemma degenerate_polynomials_counterexample :
  ~ (exists float_excess,
       forall p s, p <= 1 ->
         exists e, init float_excess Fibonacci p s = Raise e)
  /\ ~ (exists float_excess,
          forall s, exists e, init float_excess Galois 0 s = Raise e).
Proof.
  split.
  - intros [fe H]. destruct (H 1 0 ltac:(lia)) as [e He]. discriminate He.
  - intros [fe H]. destruct (H 0) as [e He]. discriminate He.
Qed.

(** C9 as stated fails, whatever the floating-point logarithm returns.
    The external-feedback model gives a power of two a field order one less
    than the number of its digits, and zero-padding never shortens: the
    registers built from (0b1000, 1) and (0b1011, 1), of field orders 3 and
    4, compose into a register of polynomial 0b10001011 and field order 8.
    (On no register at all [from_lfsrs] raises [ValueError]: lemma
    [from_lfsrs_nil].) *)
Lemma from_lfsrs_counterexample :
  ~ (exists float_excess,
       forall (m : model) (args args' : list register) (r : register),
         Forall (fun a => exists p s, init float_excess m p s = Ok a) args ->
         from_lfsrs float_excess m args = Ok (args', r) ->
         field_order r = sum_list (field_order <$> args)).
Proof.
  intros [fe H].
  assert (Hc : 8 = 7); [|discriminate Hc].
  refine (H Fibonacci
    [ {| poly := 8; state := 1; state_init := 1; field_order := 3;
         poly_str := lit "1000" |};
      {| poly := 11; state := 1; state_init := 1; field_order := 4;
         poly_str := lit "1011" |} ]
    _ {| poly := 139; state := 17; state_init := 17; field_order := 8;
         poly_str := lit "10001011" |} _ eq_refl).
  repeat constructor.
  - exists 8, 1. reflexivity.
  - exists 11, 1. reflexivity.
Qed.
